(** * Go slice patterns: values, pointer to a slice, slice of pointers

    A shallow embedding of the three Go programs of the repository
    (the behaviour demo [main.go], the benchmark data generators, and
    [examples/side_effects_and_nil/main.go]) together with the parts of the
    Go runtime and standard library they rely on: nil and non-nil slices,
    pointers into a heap of records, [append], [make], [sort.Slice] and
    [encoding/json]. *)

From Stdlib Require Import ZArith String Ascii DecimalString Lia.
From Stdlib Require Import Sorting.Permutation Sorting.Sorted.
From stdpp Require Import base option list sorting.

Set Warnings "-register-all".

Local Open Scope string_scope.
Local Open Scope list_scope.
Local Open Scope Z_scope.

(** ** Go values shared by the three programs *)

Module Go.

(** A slice as a value: the nil slice, or a non-nil slice holding [xs]
    ([slice_of nil] is the empty, non-nil slice that [make] and the
    literal [[]T{}] return). *)
Inductive slice (A : Type) : Type :=
| nil_slice
| slice_of (xs : list A).

Arguments nil_slice {A}.
Arguments slice_of {A} xs.

(** [make([]T, 0, c)] *)
Definition make0 {A} : slice A := slice_of [].

(** What [for _, x := range s] visits, and [len(s)]. *)
Definition elems {A} (s : slice A) : list A :=
  match s with
  | nil_slice => []
  | slice_of xs => xs
  end.

Definition len {A} (s : slice A) : nat := length (elems s).

Definition slice_map {A B} (f : A -> B) (s : slice A) : slice B :=
  match s with
  | nil_slice => nil_slice
  | slice_of xs => slice_of (List.map f xs)
  end.

(** [append(s, x)]: the result is never nil. *)
Definition append1 {A} (s : slice A) (x : A) : slice A :=
  slice_of (elems s ++ [x]).

(** [append(s, t...)]: appending nothing returns [s] itself, also when
    [s] is nil. *)
Definition append {A} (s t : slice A) : slice A :=
  match elems t with
  | [] => s
  | ys => slice_of (elems s ++ ys)
  end.

(** Go's [int] and [uint] on a 64-bit platform, with their wrap-around. *)
Definition int_max : Z := 2 ^ 63 - 1.

Definition wrap_int (z : Z) : Z := (z + 2 ^ 63) mod 2 ^ 64 - 2 ^ 63.

(** The conversion [uint(z)]. *)
Definition to_uint (z : Z) : Z := z mod 2 ^ 64.

(** [make([]T, n)] goes through [makeslice] of the runtime, which panics
    ("len out of range") on a negative length and on a length whose
    [size * n] bytes exceed [maxAlloc], 2^48 on a 64-bit platform. *)
Definition maxAlloc : Z := 2 ^ 48.

Definition make_panics (size n : Z) : bool :=
  (n <? 0) || (maxAlloc <? size * n).

(** [strconv.Itoa] *)
Definition Itoa (z : Z) : string := NilZero.string_of_int (Z.to_int z).

(** String comparison [s < t]: lexicographic on bytes. *)
Definition string_lt (s t : string) : bool := String.ltb s t.

End Go.

(** ** Pointers and the heap they point into *)

Module Mem.

(** Addresses. *)
Abbreviation loc := nat (only parsing).

(** A pointer is nil or the address of a heap cell. *)
Inductive ptr : Type :=
| PNil
| PRef (l : loc).

Arguments PRef l%_nat.

Definition is_nil (p : ptr) : bool :=
  match p with PNil => true | PRef _ => false end.

Definition non_nil (p : ptr) : bool := negb (is_nil p).

(** A pointer to a cell allocated at address [n] or later. *)
Definition fresh_from (n : nat) (q : ptr) : Prop :=
  match q with
  | PNil => False
  | PRef l => (n <= l)%nat
  end.

(** The heap: cell [l] is the [l]-th record allocated. *)
Abbreviation heap A := (list A) (only parsing).

Section Heap.
Context {A : Type}.

(** [*p]; [None] is the nil-dereference panic. *)
Definition deref (h : heap A) (p : ptr) : option A :=
  match p with
  | PNil => None
  | PRef l => h !! l
  end.

(** [&u] for a fresh variable [u]: a new cell, at a new address. *)
Definition alloc (h : heap A) (u : A) : ptr * heap A :=
  (PRef (length h), h ++ [u]).

(** [p.F = v], as the update [f] of the record [p] points to. *)
Definition assign (h : heap A) (p : ptr) (f : A -> A) : option (heap A) :=
  match p with
  | PNil => None
  | PRef l =>
      match h !! l with
      | Some u => Some (<[l := f u]> h)
      | None => None
      end
  end.

(** Memory safety of Go: a pointer is nil or points to a live cell. *)
Definition valid (h : heap A) (p : ptr) : Prop :=
  match p with
  | PNil => True
  | PRef l => (l < length h)%nat
  end.

End Heap.

End Mem.

(** ** encoding/json *)

Module Json.

(** A JSON document, as the tree of tokens [json.Marshal] writes; the
    bytes it returns are the compact rendering of this tree. *)
Inductive json : Type :=
| JNull
| JNum (n : Z)
| JStr (s : string)
| JArr (xs : list json)
| JObj (fs : list (string * json)).

(** A Go value as the encoder's reflection sees it. A struct field comes
    with the key of its tag (or its name) and whether the tag has
    [omitempty]; a map is a non-nil [map[string]any], whose values are
    the dynamic values of its interfaces. *)
Inductive value : Type :=
| VInt (n : Z)
| VString (s : string)
| VSlice (xs : Go.slice value)
| VPtr (p : option value)
| VStruct (fs : list (string * bool * value))
| VMap (kvs : list (string * value)).

(** [isEmptyValue] of encoding/json: zero numbers, nil pointers, and
    strings, slices and maps of length zero. *)
Definition isEmptyValue (v : value) : bool :=
  match v with
  | VInt n => Z.eqb n 0
  | VString s => Nat.eqb (String.length s) 0
  | VSlice xs => Nat.eqb (Go.len xs) 0
  | VPtr p => match p with None => true | Some _ => false end
  | VStruct _ => false
  | VMap kvs => Nat.eqb (length kvs) 0
  end.

(** Object keys of a map are written in sorted order. *)
Fixpoint insert_key (k : string) (j : json) (fs : list (string * json))
  : list (string * json) :=
  match fs with
  | [] => [(k, j)]
  | (k', j') :: fs' =>
      if String.leb k k' then (k, j) :: fs
      else (k', j') :: insert_key k j fs'
  end.

Definition sort_keys (fs : list (string * json)) : list (string * json) :=
  fold_right (fun kj acc => insert_key (fst kj) (snd kj) acc) [] fs.

(** [json.Marshal] *)
Fixpoint marshal (v : value) : json :=
  match v with
  | VInt n => JNum n
  | VString s => JStr s
  | VSlice Go.nil_slice => JNull
  | VSlice (Go.slice_of xs) => JArr (List.map marshal xs)
  | VPtr None => JNull
  | VPtr (Some v') => marshal v'
  | VStruct fs =>
      JObj (List.flat_map
              (fun f => match f with
                        | (key, omitempty, fv) =>
                            if omitempty && isEmptyValue fv then []
                            else [(key, marshal fv)]
                        end) fs)
  | VMap kvs =>
      JObj (sort_keys (List.map (fun kv => (fst kv, marshal (snd kv))) kvs))
  end.

(** The member [key] of an object. *)
Fixpoint member (key : string) (fs : list (string * json)) : option json :=
  match fs with
  | [] => None
  | (k, j) :: fs' => if String.eqb key k then Some j else member key fs'
  end.

Definition field (key : string) (j : json) : option json :=
  match j with
  | JObj fs => member key fs
  | _ => None
  end.

(** The document has no member [key]. *)
Definition omits (key : string) (j : json) : bool :=
  match field key j with
  | None => true
  | Some _ => false
  end.

(** Number of [null] tokens in the document. *)
Fixpoint count_null (j : json) : nat :=
  match j with
  | JNull => 1
  | JNum _ | JStr _ => 0
  | JArr xs => fold_right (fun x n => count_null x + n)%nat 0%nat xs
  | JObj fs => fold_right (fun f n => count_null (snd f) + n)%nat 0%nat fs
  end.

Definition sum_nulls (js : list json) : nat :=
  fold_right (fun x n => count_null x + n)%nat 0%nat js.

Definition is_null (j : json) : bool :=
  match j with
  | JNull => true
  | _ => false
  end.

(** An array without its [null] elements, the others in their order. *)
Definition without_null (js : list json) : list json :=
  List.filter (fun j => negb (is_null j)) js.

End Json.

(** ** main.go and the benchmark generators (package main) *)

Module Main.
Import Go Mem Json.

Record User : Type := mkUser {
  ID : Z;          (* uint *)
  Name : string;
  Age : Z;         (* uint *)
  Email : string;
  City : string
}.

(** Pattern A: a slice of values. *)
Record HogeA : Type := { HogeA_Users : slice User }.

(** Pattern B: a pointer to a slice; [None] is the nil pointer. *)
Record FugaB : Type := { FugaB_Users : option (slice User) }.

(** Pattern C: a slice of pointers to elements; an element [None] is a
    nil pointer. *)
Record PiyoC : Type := { PiyoC_Users : slice (option User) }.

(** What the encoder's reflection sees of each type. [User] has no tags;
    the three containers tag their field [json:"users,omitempty"]. *)
Definition User_value (u : User) : value :=
  VStruct [("ID", false, VInt (ID u));
           ("Name", false, VString (Name u));
           ("Age", false, VInt (Age u));
           ("Email", false, VString (Email u));
           ("City", false, VString (City u))].

Definition HogeA_value (a : HogeA) : value :=
  VStruct [("users", true,
            VSlice (slice_map User_value (HogeA_Users a)))].

Definition FugaB_value (b : FugaB) : value :=
  VStruct [("users", true,
            VPtr ((fun s => VSlice (slice_map User_value s))
                    <$> FugaB_Users b))].

Definition PiyoC_value (c : PiyoC) : value :=
  VStruct [("users", true,
            VSlice (slice_map (fun p => VPtr (User_value <$> p))
                      (PiyoC_Users c)))].

(** [printJSON]'s [json.Marshal(v)], at each of the three types. *)
Definition printJSON_A (a : HogeA) : json := marshal (HogeA_value a).
Definition printJSON_B (b : FugaB) : json := marshal (FugaB_value b).
Definition printJSON_C (c : PiyoC) : json := marshal (PiyoC_value c).

(** The three container shapes, each with its value holding no collection
    ([HogeA{}], [var b FugaB], [PiyoC{}]) and its value holding an empty
    one ([[]User{}], [&empty], [[]*User{}]). *)
Inductive shape : Type := ValueSlice | SlicePointer | PointerSlice.

Definition absent_json (s : shape) : json :=
  match s with
  | ValueSlice => printJSON_A {| HogeA_Users := nil_slice |}
  | SlicePointer => printJSON_B {| FugaB_Users := None |}
  | PointerSlice => printJSON_C {| PiyoC_Users := nil_slice |}
  end.

Definition empty_json (s : shape) : json :=
  match s with
  | ValueSlice => printJSON_A {| HogeA_Users := slice_of [] |}
  | SlicePointer => printJSON_B {| FugaB_Users := Some (slice_of []) |}
  | PointerSlice => printJSON_C {| PiyoC_Users := slice_of [] |}
  end.

(** The rule "omit the users field when the collection is absent or has
    zero elements" holds of a shape. *)
Definition omits_absent_and_empty (s : shape) : bool :=
  omits "users" (absent_json s) && omits "users" (empty_json s).

(** The rule holds of the shape [s] alone, the two other shapes giving
    distinguishable output for an absent and an empty collection. *)
Definition omit_rule_on_exactly (s : shape) : Prop :=
  omits_absent_and_empty s = true /\
  forall s', s' <> s ->
    omits_absent_and_empty s' = false /\
    absent_json s' <> empty_json s'.

(** *** Pattern A in memory: slice headers over backing arrays

    To tell a copy from an alias, a [[]User] is here the header Go passes
    around: nil, or [len] cells from offset [off] of the backing array at
    address [base]. Capacity is left out: nothing below appends to a
    slice it did not just allocate. *)
Abbreviation arrays := (list (list User)) (only parsing).

Inductive header : Type :=
| HNil
| HSlice (base : loc) (off len : nat).

Arguments HSlice (base off len)%_nat.

(** The elements a header denotes in a memory. *)
Definition read (m : arrays) (s : header) : option (slice User) :=
  match s with
  | HNil => Some nil_slice
  | HSlice b o n =>
      match m !! b with
      | Some arr =>
          if (o + n <=? length arr)%nat
          then Some (slice_of (take n (drop o arr)))
          else None
      | None => None
      end
  end.

(** [append([]User(nil), s...)]: nothing to append gives back nil;
    otherwise the elements are copied to a new backing array. *)
Definition append_nil (m : arrays) (s : header) : option (header * arrays) :=
  match read m s with
  | None => None
  | Some v =>
      match elems v with
      | [] => Some (HNil, m)
      | xs => Some (HSlice (length m) 0 (length xs), m ++ [xs])
      end
  end.

(** [s[i].F = v] as the update [f] of element [i]; [None] is the
    index-out-of-range panic. *)
Definition set_elem (m : arrays) (s : header) (i : nat) (f : User -> User)
  : option arrays :=
  match s with
  | HNil => None
  | HSlice b o n =>
      if (i <? n)%nat then
        match m !! b with
        | Some arr =>
            match arr !! (o + i)%nat with
            | Some u => Some (<[b := <[(o + i)%nat := f u]> arr]> m)
            | None => None
            end
        | None => None
        end
      else None
  end.

Arguments set_elem m s i%_nat f.

Definition set_Name (s : string) (u : User) : User :=
  mkUser (ID u) s (Age u) (Email u) (City u).

(** [main], pattern A, lines 40 to 46: the one-element slice, its copy
    [a2], the write to the copy, and the two names printed. *)
Definition alice : User := mkUser 1 "Alice" 20 "a@example.com" "Sendai".

Definition main_A : option (string * string) :=
  let m0 : arrays := [[alice]] in
  let a := HSlice 0 0 1 in
  '(a2, m1) ← append_nil m0 a;
  m2 ← set_elem m1 a2 0 (set_Name "Changed in a2");
  va ← read m2 a;
  va2 ← read m2 a2;
  ua ← elems va !! 0%nat;
  ua2 ← elems va2 !! 0%nat;
  Some (Name ua, Name ua2).

(** *** The benchmark generators *)

(** The record both generators build at index [i]. *)
Definition gen_user (i : Z) : User :=
  {| ID := to_uint (wrap_int (i + 1));
     Name := String.append "User_" (Itoa i);
     Age := to_uint (wrap_int (18 + Z.rem i 50));
     Email := String.append "user" (String.append (Itoa i) "@example.com");
     City := String.append "City" (Itoa (Z.rem i 10)) |}.

Definition zero_User : User := mkUser 0 "" 0 "" "".

(** Sizes in bytes on a 64-bit platform: a [User] is two words of 8
    bytes and three string headers of 16, a pointer is one word. *)
Definition sizeof_User : Z := 64.
Definition sizeof_ptr : Z := 8.

(** The indices [for i := 0; i < n; i++] visits. *)
Definition upto (n : Z) : list Z := List.map Z.of_nat (seq 0 (Z.to_nat n)).

(** [genUsers]; [None] is the panic of [make([]User, n)]. *)
Definition genUsers (n : Z) : option (slice User) :=
  if make_panics sizeof_User n then None
  else
    let us := replicate (Z.to_nat n) zero_User in
    Some (slice_of
            (fold_left (fun us i => <[Z.to_nat i := gen_user i]> us)
               (upto n) us)).

(** [genPtrUsers]: each record is a fresh variable [u] whose address is
    stored; [None] is the panic of [make([]*User, n)]. *)
Definition genPtrUsers (n : Z) (h : heap User)
  : option (slice ptr * heap User) :=
  if make_panics sizeof_ptr n then None
  else
    let us := replicate (Z.to_nat n) PNil in
    let '(us', h') :=
      fold_left (fun st i =>
                   let '(p, h1) := alloc (snd st) (gen_user i) in
                   (<[Z.to_nat i := p]> (fst st), h1))
        (upto n) (us, h) in
    Some (slice_of us', h').

(** The two generators agree at [n]: each returns [n] records, the
    record at index [i] has the fields derived from [i], and the i-th
    pointer of [genPtrUsers] refers to a record equal to the i-th value of
    [genUsers]. *)
Definition generators_agree (n : Z) : Prop :=
  exists us,
    genUsers n = Some (slice_of us) /\
    Z.of_nat (length us) = n /\
    (forall i, 0 <= i < n ->
       us !! Z.to_nat i =
         Some {| ID := i + 1;
                 Name := String.append "User_" (Itoa i);
                 Age := 18 + i mod 50;
                 Email := String.append "user"
                            (String.append (Itoa i) "@example.com");
                 City := String.append "City" (Itoa (i mod 10)) |}) /\
    forall h, exists ps h',
      genPtrUsers n h = Some (slice_of ps, h') /\
      Z.of_nat (length ps) = n /\
      forall i : nat, (i < length ps)%nat ->
        exists p, ps !! i = Some p /\ is_nil p = false /\
                  deref h' p = us !! i.

End Main.

(** ** sort.Slice *)

Module Sort.

Section Sorting.
Context {A : Type}.

(** A comparator is a Go closure: it may panic ([None]). *)
Definition comparator : Type := A -> A -> option bool.

(** What [sort.Slice] asks of [less] on the elements it sorts: it
    answers, without a panic, like a strict weak ordering [lt]: nothing is
    less than itself, "less" is transitive, and so is "not less". *)
Record ordering_on (xs : list A) (less : comparator) (lt : A -> A -> bool)
  : Prop := {
  less_answers : forall x y, x ∈ xs -> y ∈ xs -> less x y = Some (lt x y);
  lt_irrefl : forall x, x ∈ xs -> lt x x = false;
  lt_trans : forall x y z, x ∈ xs -> y ∈ xs -> z ∈ xs ->
             lt x y = true -> lt y z = true -> lt x z = true;
  ge_trans : forall x y z, x ∈ xs -> y ∈ xs -> z ∈ xs ->
             lt x y = false -> lt y z = false -> lt x z = false
}.

(** [a] may stand before [b] in reverse order: it is not less. *)
Definition not_less (lt : A -> A -> bool) (a b : A) : Prop :=
  lt a b = false.

(** No element is less than one before it. *)
Definition ascending (lt : A -> A -> bool) (out : list A) : Prop :=
  forall i j x y, (i < j)%nat ->
    out !! i = Some x -> out !! j = Some y -> lt y x = false.

(** The contract of [sort.Slice]: given such a comparator it returns,
    without a panic, the same elements in ascending order. *)
Definition sorts (sort : comparator -> list A -> option (list A)) : Prop :=
  forall less lt xs,
    ordering_on xs less lt ->
    exists out, sort less xs = Some out /\ Permutation xs out /\
                ascending lt out.

(** [insertionSort_func] of package sort, the whole of [sort.Slice] on
    at most 12 elements: element [i] is swapped towards the front while
    it is less than its left neighbour. [sift less x front] takes the
    sorted front part in reverse (nearest neighbour first). *)
Fixpoint sift (less : comparator) (x : A) (front : list A)
  : option (list A) :=
  match front with
  | [] => Some [x]
  | y :: front' =>
      match less x y with
      | None => None
      | Some true =>
          match sift less x front' with
          | Some r => Some (y :: r)
          | None => None
          end
      | Some false => Some (x :: front)
      end
  end.

Fixpoint insertion_loop (less : comparator) (front rest : list A)
  : option (list A) :=
  match rest with
  | [] => Some (rev front)
  | x :: rest' =>
      match sift less x front with
      | Some front' => insertion_loop less front' rest'
      | None => None
      end
  end.

Definition insertionSort_func (less : comparator) (xs : list A)
  : option (list A) :=
  insertion_loop less [] xs.

(** Sorting a slice in place keeps it nil or non-nil. *)
Definition sort_slice (sort : comparator -> list A -> option (list A))
    (less : comparator) (s : Go.slice A) : option (Go.slice A) :=
  match s with
  | Go.nil_slice => Some Go.nil_slice
  | Go.slice_of xs =>
      match sort less xs with
      | Some out => Some (Go.slice_of out)
      | None => None
      end
  end.

End Sorting.

Arguments comparator : clear implicits.

End Sort.

(** ** examples/side_effects_and_nil/main.go *)

Module Pitfalls.
Import Go Mem Json.

Record User : Type := mkUser {
  ID : Z;          (* int *)
  Name : string;
  Email : string;
  City : string
}.

(** Field assignments [u.F = v]. *)
Definition set_ID (v : Z) (u : User) : User :=
  mkUser v (Name u) (Email u) (City u).
Definition set_Name (v : string) (u : User) : User :=
  mkUser (ID u) v (Email u) (City u).
Definition set_Email (v : string) (u : User) : User :=
  mkUser (ID u) (Name u) v (City u).
Definition set_City (v : string) (u : User) : User :=
  mkUser (ID u) (Name u) (Email u) v.

(** A predicate, a Go func from a User pointer to bool, reads the heap
    and may panic. *)
Definition predicate : Type := heap User -> ptr -> option bool.

(** [toPtrSlice]: [out[i] = &u] for a fresh copy [u] of [vs[i]]. *)
Fixpoint toPtrSlice_loop (vs : list User) (i : nat)
    (out : list ptr) (h : heap User) : list ptr * heap User :=
  match vs with
  | [] => (out, h)
  | u :: vs' =>
      let '(p, h') := alloc h u in
      toPtrSlice_loop vs' (S i) (<[i := p]> out) h'
  end.

Definition toPtrSlice (vs : slice User) (h : heap User)
  : slice ptr * heap User :=
  let '(out, h') :=
    toPtrSlice_loop (elems vs) 0 (replicate (len vs) PNil) h in
  (slice_of out, h').

(** [toValueSlice] *)
Fixpoint toValueSlice_loop (h : heap User) (ps : list ptr)
    (out : slice User) : option (slice User) :=
  match ps with
  | [] => Some out
  | p :: ps' =>
      if is_nil p then toValueSlice_loop h ps' out
      else
        match deref h p with
        | Some u => toValueSlice_loop h ps' (append1 out u)
        | None => None
        end
  end.

Definition toValueSlice (h : heap User) (ps : slice ptr)
  : option (slice User) :=
  toValueSlice_loop h (elems ps) make0.

(** [deepCopyPtrSlice] *)
Fixpoint deepCopyPtrSlice_loop (ps : list ptr) (out : slice ptr)
    (h : heap User) : option (slice ptr * heap User) :=
  match ps with
  | [] => Some (out, h)
  | p :: ps' =>
      if is_nil p then deepCopyPtrSlice_loop ps' (append1 out PNil) h
      else
        match deref h p with
        | Some cp =>
            let '(q, h') := alloc h cp in
            deepCopyPtrSlice_loop ps' (append1 out q) h'
        | None => None
        end
  end.

Definition deepCopyPtrSlice (ps : slice ptr) (h : heap User)
  : option (slice ptr * heap User) :=
  deepCopyPtrSlice_loop (elems ps) make0 h.

(** [filterPtr]: the pointer itself is appended. *)
Fixpoint filterPtr_loop (pred : predicate) (h : heap User)
    (ps : list ptr) (out : slice ptr) : option (slice ptr) :=
  match ps with
  | [] => Some out
  | p :: ps' =>
      match pred h p with
      | Some true => filterPtr_loop pred h ps' (append1 out p)
      | Some false => filterPtr_loop pred h ps' out
      | None => None
      end
  end.

Definition filterPtr (ps : slice ptr) (pred : predicate) (h : heap User)
  : option (slice ptr) :=
  filterPtr_loop pred h (elems ps) make0.

(** [filterPtrDeepCopy]: nil is skipped before [pred] is asked, and the
    address of a fresh copy [cp] is appended. *)
Fixpoint filterPtrDeepCopy_loop (pred : predicate) (ps : list ptr)
    (out : slice ptr) (h : heap User) : option (slice ptr * heap User) :=
  match ps with
  | [] => Some (out, h)
  | p :: ps' =>
      if is_nil p then filterPtrDeepCopy_loop pred ps' out h
      else
        match pred h p with
        | Some false => filterPtrDeepCopy_loop pred ps' out h
        | Some true =>
            match deref h p with
            | Some cp =>
                let '(q, h') := alloc h cp in
                filterPtrDeepCopy_loop pred ps' (append1 out q) h'
            | None => None
            end
        | None => None
        end
  end.

Definition filterPtrDeepCopy (ps : slice ptr) (pred : predicate)
    (h : heap User) : option (slice ptr * heap User) :=
  filterPtrDeepCopy_loop pred (elems ps) make0 h.

(** [compactNonNil] *)
Fixpoint compactNonNil_loop (ps : list ptr) (out : slice ptr) : slice ptr :=
  match ps with
  | [] => out
  | p :: ps' =>
      if negb (is_nil p) then compactNonNil_loop ps' (append1 out p)
      else compactNonNil_loop ps' out
  end.

Definition compactNonNil (ps : slice ptr) : slice ptr :=
  compactNonNil_loop (elems ps) make0.

(** [ptrNames] *)
Fixpoint ptrNames_loop (h : heap User) (ps : list ptr) (i : nat)
    (b : string) : option string :=
  match ps with
  | [] => Some b
  | p :: ps' =>
      let b1 := if (0 <? i)%nat then String.append b ", " else b in
      if is_nil p then ptrNames_loop h ps' (S i) (String.append b1 "nil")
      else
        match deref h p with
        | Some u => ptrNames_loop h ps' (S i) (String.append b1 (Name u))
        | None => None
        end
  end.

Definition ptrNames (h : heap User) (ps : slice ptr) : option string :=
  match ptrNames_loop h (elems ps) 0 "[" with
  | Some b => Some (String.append b "]")
  | None => None
  end.

(** [withCity]: the parameter [u] is the callee's own copy. *)
Definition withCity (u : User) (city : string) : User :=
  let u := set_City city u in
  u.

(** The call [withCity(x, city)] with the variables in memory: the
    caller's variable is the cell [x]; its value is copied to a new cell,
    the parameter [u]; the body assigns to that cell and returns its
    value. The result comes with the memory after the call. *)
Definition call_withCity (h : heap User) (x : ptr) (city : string)
  : option (User * heap User) :=
  match deref h x with
  | Some arg =>
      let '(u, h1) := alloc h arg in
      match assign h1 u (set_City city) with
      | Some h2 =>
          match deref h2 u with
          | Some r => Some (r, h2)
          | None => None
          end
      | None => None
      end
  | None => None
  end.

(** [s[i]] dereferenced, and [s[i].F = v] as the update [f]: the slice
    holds the pointer, the write goes to the heap. [None] is the panic
    of an index out of range or of a nil pointer. *)
Definition read_at (h : heap User) (s : slice ptr) (i : nat)
  : option User :=
  match elems s !! i with
  | Some p => deref h p
  | None => None
  end.

Definition assign_at (h : heap User) (s : slice ptr) (i : nat)
    (f : User -> User) : option (heap User) :=
  match elems s !! i with
  | Some p => assign h p f
  | None => None
  end.

(** A run of such writes through the slice [s]. *)
Fixpoint assign_all (h : heap User) (s : slice ptr)
    (ws : list (nat * (User -> User))) : option (heap User) :=
  match ws with
  | [] => Some h
  | (i, f) :: ws' =>
      match assign_at h s i f with
      | Some h' => assign_all h' s ws'
      | None => None
      end
  end.

(** The nil-aware comparator of [nilPitfallsDemo], on the two elements
    [ptrs[i]] and [ptrs[j]]. *)
Definition less (h : heap User) (ui uj : ptr) : option bool :=
  if is_nil ui && is_nil uj then Some false
  else if is_nil ui then Some false
  else if is_nil uj then Some true
  else
    match deref h ui, deref h uj with
    | Some a, Some b => Some (string_lt (Name a) (Name b))
    | _, _ => None
    end.

(** The order [less] answers for: nil after everything, names
    ascending. *)
Definition name_lt (h : heap User) (ui uj : ptr) : bool :=
  match deref h ui, deref h uj with
  | Some a, Some b => string_lt (Name a) (Name b)
  | Some _, None => true
  | None, _ => false
  end.

(** What the encoder sees. [User] has no tags. *)
Definition User_value (u : User) : value :=
  VStruct [("ID", false, VInt (ID u));
           ("Name", false, VString (Name u));
           ("Email", false, VString (Email u));
           ("City", false, VString (City u))].

Definition ptr_value (h : heap User) (p : ptr) : option value :=
  match p with
  | PNil => Some (VPtr None)
  | PRef l =>
      match h !! l with
      | Some u => Some (VPtr (Some (User_value u)))
      | None => None
      end
  end.

Fixpoint ptr_values (h : heap User) (ps : list ptr) : option (list value) :=
  match ps with
  | [] => Some []
  | p :: ps' =>
      match ptr_value h p, ptr_values h ps' with
      | Some v, Some vs => Some (v :: vs)
      | _, _ => None
      end
  end.

Definition ptr_slice_value (h : heap User) (ps : slice ptr)
  : option value :=
  match ps with
  | nil_slice => Some (VSlice nil_slice)
  | slice_of xs =>
      match ptr_values h xs with
      | Some vs => Some (VSlice (slice_of vs))
      | None => None
      end
  end.

(** [json.Marshal(map[string]any{"users": ps})] *)
Definition marshal_users (h : heap User) (ps : slice ptr) : option json :=
  match ptr_slice_value h ps with
  | Some v => Some (marshal (VMap [("users", v)]))
  | None => None
  end.

(** Element [i] of the array under "users". *)
Definition users_elem (doc : json) (i : nat) : option json :=
  match field "users" doc with
  | Some (JArr xs) => xs !! i
  | _ => None
  end.

Definition absent_slots (ps : slice ptr) : nat :=
  length (List.filter is_nil (elems ps)).

(** Serialized as it is, [ps] gives one null per nil slot, at the place
    of that slot. *)
Definition null_per_absent_slot (h : heap User) (ps : slice ptr) : Prop :=
  exists doc,
    marshal_users h ps = Some doc /\
    count_null doc = absent_slots ps /\
    forall i, users_elem doc i = Some JNull <-> elems ps !! i = Some PNil.

(** Serialized after [compactNonNil], [ps] gives no null. *)
Definition no_null_after_compact (h : heap User) (ps : slice ptr) : Prop :=
  exists doc,
    marshal_users h (compactNonNil ps) = Some doc /\
    count_null doc = 0%nat.

(** Serialized after [compactNonNil], [ps] gives the array it gives as it
    is, less its nulls: every other element is kept, in its place among
    the others. *)
Definition compact_drops_only_null (h : heap User) (ps : slice ptr) : Prop :=
  exists arr,
    marshal_users h ps = Some (JObj [("users", JArr arr)]) /\
    marshal_users h (compactNonNil ps)
    = Some (JObj [("users", JArr (without_null arr))]).

(** The data of [nilPitfallsDemo]: two records on the heap and a nil
    between their addresses. *)
Definition alice : User := mkUser 1 "Alice" "a@example.com" "Sendai".
Definition carol : User := mkUser 3 "Carol" "c@example.com" "Nagoya".

Definition nilPitfalls_heap : heap User := [alice; carol].

Definition nilPitfalls_ptrs : slice ptr :=
  slice_of [PRef 0; PNil; PRef 1].

(** [nilPitfallsDemo] over a sorting routine: the names printed after the
    sort, the document of the sorted slice as it is, and the document of
    the compacted slice. *)
Definition nilPitfallsDemo
    (sort_Slice : Sort.comparator ptr -> list ptr -> option (list ptr))
  : option (string * json * json) :=
  let h := nilPitfalls_heap in
  ptrs ← Sort.sort_slice sort_Slice (less h) nilPitfalls_ptrs;
  names ← ptrNames h ptrs;
  out ← marshal_users h ptrs;
  let cleaned := compactNonNil ptrs in
  out2 ← marshal_users h cleaned;
  Some (names, out, out2).

(** The predicate of both demos:
    [u != nil && u.City == "Sendai"]. *)
Definition in_Sendai : predicate :=
  fun h u =>
    if negb (is_nil u) then
      match deref h u with
      | Some r => Some (String.eqb (City r) "Sendai")
      | None => None
      end
    else Some false.

(** The data of [sideEffectsDemo]. *)
Definition sideEffects_src : slice User :=
  slice_of [mkUser 1 "Alice" "a@example.com" "Sendai";
            mkUser 2 "Bob" "b@example.com" "Kanazawa"].

(** The data of [safePatternsDemo] 3-1, already on the heap. *)
Definition safePatterns_heap : heap User :=
  [mkUser 1 "Alice" "" "Sendai";
   mkUser 2 "Bob" "" "Kanazawa";
   mkUser 3 "Carol" "" "Sendai"].

Definition safePatterns_src : slice ptr :=
  slice_of [PRef 0; PRef 1; PRef 2].

(** The elements [pred] accepts. *)
Definition selected (pred : predicate) (h : heap User) (ps : list ptr)
  : list ptr :=
  List.filter
    (fun p => match pred h p with Some true => true | _ => false end) ps.

(** What a pointer is encoded as: null when it is nil, and a value
    without null otherwise. *)
Definition encodes (p : ptr) (v : value) : Prop :=
  match p with
  | PNil => marshal v = JNull
  | PRef _ => marshal v <> JNull /\ count_null (marshal v) = 0%nat
  end.

(** [sideEffectsDemo]: [ptrs] and the heap after [toPtrSlice(src)], and
    what the last two [Printf] calls show:
    [ptrs[0].Name], [onlySendai[0].Name] and [ptrs[1].City]. *)
Definition sideEffects_ptrs : slice ptr :=
  fst (toPtrSlice sideEffects_src []).

Definition sideEffects_heap : heap User :=
  snd (toPtrSlice sideEffects_src []).

Definition sideEffectsDemo : option (string * string * string) :=
  let ptrs := sideEffects_ptrs in
  let h := sideEffects_heap in
  onlySendai ← filterPtr ptrs in_Sendai h;
  h1 ← assign_at h onlySendai 0 (set_Name "Alice-Updated");
  a ← read_at h1 ptrs 0;
  b ← read_at h1 onlySendai 0;
  let shallow := append nil_slice ptrs in
  h2 ← assign_at h1 shallow 1 (set_City "Tokyo");
  c ← read_at h2 ptrs 1;
  Some (Name a, Name b, City c).

(** [safePatternsDemo] 3-1: [src[0].Name] and [copied[0].Name] after the
    write to the copy. *)
Definition safePatternsDemo : option (string * string) :=
  let src := safePatterns_src in
  '(copied, h1) ← filterPtrDeepCopy src in_Sendai safePatterns_heap;
  h2 ← assign_at h1 copied 0 (set_Name "Alice-DeepCopied");
  a ← read_at h2 src 0;
  b ← read_at h2 copied 0;
  Some (Name a, Name b).

(** [safePatternsDemo] 3-4: [cache[0].Name] after the write to the deep
    copy handed out. *)
Definition safePatternsDemo_cache : option string :=
  let h : heap User := [mkUser 100 "X" "" ""; mkUser 101 "Y" "" ""] in
  let cache := slice_of [PRef 0; PRef 1] in
  '(safeExternal, h1) ← deepCopyPtrSlice cache h;
  h2 ← assign_at h1 safeExternal 0 (set_Name "X-Changed-Outside");
  c ← read_at h2 cache 0;
  Some (Name c).

End Pitfalls.


(** ** main.go, patterns B and C in memory *)

Module Shared.
Import Go Mem Json Main.

(** Pattern B: [b.Users] is the address of a variable that holds a slice
    header; [vars] are those variables. [( *p)[i].F = v] and the read of
    [*p] go through the header found there. *)
Definition read_via (vars : list header) (m : arrays) (p : ptr)
  : option (slice User) :=
  match deref vars p with
  | Some s => read m s
  | None => None
  end.

Definition set_elem_via (vars : list header) (m : arrays) (p : ptr)
    (i : nat) (f : User -> User) : option arrays :=
  match deref vars p with
  | Some s => set_elem m s i f
  | None => None
  end.

Definition bob : User := mkUser 2 "Bob" 30 "b@example.com" "Kanazawa".

(** [main], pattern B, lines 52 to 59: the variables [empty] and [val],
    the pointer [b.Users = &val], the write through it and the name
    printed. *)
Definition main_B : option string :=
  let m0 : arrays := [[]; [bob]] in
  let vars := [HSlice 0 0 0; HSlice 1 0 1] in
  let b_Users := PRef 1 in
  m1 ← set_elem_via vars m0 b_Users 0 (set_Name "Bob-Updated");
  v ← read_via vars m1 b_Users;
  u ← elems v !! 0%nat;
  Some (Name u).

Definition carol : User := mkUser 3 "Carol" 40 "c@example.com" "Tokyo".

(** [main], pattern C, lines 63 to 71: two slices holding the pointer
    [u1], the write through [c], the two names printed, and whether the
    element appended to [c.Users] is nil. *)
Definition main_C : option (string * string * bool) :=
  let h0 : heap User := [carol] in
  let u1 := PRef 0 in
  let c := slice_of [u1] in
  let other := slice_of [u1] in
  p ← elems c !! 0%nat;
  h1 ← assign h0 p (set_Name "Carol-Shared");
  a ← deref h1 p;
  q ← elems other !! 0%nat;
  b ← deref h1 q;
  let c := append1 c PNil in
  e ← elems c !! 1%nat;
  Some (Name a, Name b, is_nil e).

End Shared.

(** ** Statements about examples/side_effects_and_nil/main.go *)

Module PitfallsSpec.
Import Go Mem Json Pitfalls.

(** What [ptrNames] writes for one slot. *)
Definition slot_name (h : heap User) (p : ptr) : string :=
  match deref h p with
  | Some u => Name u
  | None => "nil"
  end.

(** The strings [ss] with [sep] between them. *)
Fixpoint joined (sep : string) (ss : list string) : string :=
  match ss with
  | [] => ""
  | [s] => s
  | s :: rest => String.append s (String.append sep (joined sep rest))
  end.

(** A predicate that answers the same on a pointer after more cells
    have been allocated. *)
Definition extension_stable (pred : predicate) (h : heap User) : Prop :=
  forall ext p, valid h p -> pred (h ++ ext) p = pred h p.

(** The non-nil elements [pred] accepts. *)
Definition accepted (pred : predicate) (h : heap User) (ps : list ptr)
  : list ptr :=
  List.filter
    (fun p => non_nil p &&
              match pred h p with Some true => true | _ => false end) ps.

(** [q] is a new cell holding the record [p] refers to in [h]. *)
Definition copy_of (h h1 : heap User) (q p : ptr) : Prop :=
  fresh_from (length h) q /\ is_nil p = false /\ deref h1 q = deref h p.

(** Slot by slot, nil for nil and a copy for a pointer. *)
Definition deep_copy_of (h h1 : heap User) (q p : ptr) : Prop :=
  match p with
  | PNil => q = PNil
  | PRef _ => copy_of h h1 q p
  end.

End PitfallsSpec.

(** * Properties *)

Import Go Mem Json.

(** ** Pattern comparison under [omitempty] *)

(** C1 as stated does not hold: the rule is not on exactly one shape. It
    holds of two of them, so whichever shape is singled out, another one
    omits the field for the absent and for the empty collection alike. *)
Lemma omit_rule_not_on_exactly_one :
  ~ exists s, Main.omit_rule_on_exactly s.
Proof.
  intros [s [Hs Hothers]].
  destruct s.
  - destruct (Hothers Main.PointerSlice) as [H _]; [discriminate|].
    vm_compute in H. discriminate.
  - vm_compute in Hs. discriminate.
  - destruct (Hothers Main.ValueSlice) as [H _]; [discriminate|].
    vm_compute in H. discriminate.
Qed.

(** C1 (as amended): the omission rule holds of two of the three shapes, the
    value slice and the slice of pointers, whose absent and empty
    collections both serialize to the empty object; for the pointer to a
    slice alone the absent collection is omitted and the empty one is
    written as an empty array. *)
Theorem omit_rule_on_two_shapes :
  (forall s, Main.omits_absent_and_empty s = true <->
             s = Main.ValueSlice \/ s = Main.PointerSlice) /\
  Main.absent_json Main.ValueSlice = Json.JObj [] /\
  Main.empty_json Main.ValueSlice = Json.JObj [] /\
  Main.absent_json Main.PointerSlice = Json.JObj [] /\
  Main.empty_json Main.PointerSlice = Json.JObj [] /\
  Main.absent_json Main.SlicePointer = Json.JObj [] /\
  Main.empty_json Main.SlicePointer = Json.JObj [("users", Json.JArr [])].
Proof.
  split; [|repeat split; reflexivity].
  intros s; split.
  - destruct s; vm_compute; intros H; auto; discriminate.
  - intros [-> | ->]; reflexivity.
Qed.

(** ** The order on strings *)

Section StringOrder.

Lemma ascii_compare_lt_trans a b c :
  Ascii.compare a b = Lt -> Ascii.compare b c = Lt -> Ascii.compare a c = Lt.
Proof.
  unfold Ascii.compare. rewrite !N.compare_lt_iff. apply N.lt_trans.
Qed.

Lemma string_compare_refl s : String.compare s s = Eq.
Proof.
  induction s as [|a s IH]; simpl; [reflexivity|].
  replace (Ascii.compare a a) with Eq; [exact IH|].
  symmetry. unfold Ascii.compare. apply N.compare_refl.
Qed.

Lemma string_compare_lt_trans s t u :
  String.compare s t = Lt -> String.compare t u = Lt ->
  String.compare s u = Lt.
Proof.
  revert t u. induction s as [|a s IH]; intros [|b t] [|c u]; simpl;
    try congruence.
  destruct (Ascii.compare a b) eqn:Hab; try discriminate.
  - apply Ascii.compare_eq_iff in Hab as ->.
    destruct (Ascii.compare b c); try congruence. apply IH.
  - destruct (Ascii.compare b c) eqn:Hbc; try discriminate.
    + apply Ascii.compare_eq_iff in Hbc as <-. now rewrite Hab.
    + now rewrite (ascii_compare_lt_trans _ _ _ Hab Hbc).
Qed.

Lemma string_lt_irrefl s : Go.string_lt s s = false.
Proof. unfold Go.string_lt, String.ltb. now rewrite string_compare_refl. Qed.

Lemma string_lt_trans s t u :
  Go.string_lt s t = true -> Go.string_lt t u = true ->
  Go.string_lt s u = true.
Proof.
  unfold Go.string_lt, String.ltb.
  destruct (String.compare s t) eqn:Hst; try discriminate.
  destruct (String.compare t u) eqn:Htu; try discriminate.
  now rewrite (string_compare_lt_trans s t u Hst Htu).
Qed.

Lemma string_compare_gt_trans s t u :
  String.compare s t = Gt -> String.compare t u = Gt ->
  String.compare s u = Gt.
Proof.
  intros Hst Htu.
  rewrite String.compare_antisym in Hst, Htu |- *.
  destruct (String.compare t s) eqn:Hts; try discriminate.
  destruct (String.compare u t) eqn:Hut; try discriminate.
  now rewrite (string_compare_lt_trans u t s Hut Hts).
Qed.

(** "Not less" is transitive as well: the order is total. *)
Lemma string_ge_trans s t u :
  Go.string_lt s t = false -> Go.string_lt t u = false ->
  Go.string_lt s u = false.
Proof.
  unfold Go.string_lt, String.ltb.
  destruct (String.compare s t) eqn:Hst; try discriminate; intros _.
  - apply String.compare_eq_iff in Hst as ->. auto.
  - destruct (String.compare t u) eqn:Htu; try discriminate; intros _.
    + apply String.compare_eq_iff in Htu as <-. now rewrite Hst.
    + now rewrite (string_compare_gt_trans s t u Hst Htu).
Qed.

End StringOrder.

(** ** Insertion sort meets the contract of [sort.Slice] *)

Section InsertionSort.
Context {A : Type}.
Variables (xs : list A) (less : Sort.comparator A) (lt : A -> A -> bool).
Hypothesis Hord : Sort.ordering_on xs less lt.

Lemma lt_asym x y : x ∈ xs -> y ∈ xs -> lt x y = true -> lt y x = false.
Proof.
  intros Hx Hy Hxy. destruct (lt y x) eqn:Hyx; [|reflexivity].
  pose proof (Sort.lt_trans _ _ _ Hord x y x Hx Hy Hx Hxy Hyx) as Hxx.
  rewrite (Sort.lt_irrefl _ _ _ Hord x Hx) in Hxx. discriminate.
Qed.

Lemma sift_sorted front x :
  x ∈ xs -> Forall (fun y => y ∈ xs) front ->
  StronglySorted (Sort.not_less lt) front ->
  exists r, Sort.sift less x front = Some r /\
            Permutation (x :: front) r /\
            StronglySorted (Sort.not_less lt) r.
Proof.
  intros Hx. induction front as [|y front IH]; intros Hin Hsorted; simpl.
  - exists [x]. split; [reflexivity|]. split; [reflexivity|].
    repeat constructor.
  - apply Forall_cons in Hin as [Hy Hin].
    apply StronglySorted_inv in Hsorted as [Hsorted Hy_all].
    rewrite (Sort.less_answers _ _ _ Hord x y Hx Hy).
    destruct (lt x y) eqn:Hxy.
    + destruct (IH Hin Hsorted) as (r & -> & Hperm & Hr).
      exists (y :: r). split; [reflexivity|]. split.
      * rewrite perm_swap. now constructor.
      * constructor; [exact Hr|].
        rewrite <- Hperm. constructor; [|exact Hy_all].
        now apply lt_asym.
    + exists (x :: y :: front).
      split; [reflexivity|]. split; [reflexivity|].
      constructor; [now constructor|].
      constructor; [exact Hxy|].
      rewrite Forall_forall in Hy_all, Hin |- *.
      intros z Hz.
      apply (Sort.ge_trans _ _ _ Hord x y z); auto.
      apply Hy_all, Hz.
Qed.

Lemma sorted_rev front :
  StronglySorted (Sort.not_less lt) front ->
  StronglySorted (fun a b => Sort.not_less lt b a) (rev front).
Proof.
  induction 1 as [|a l Hl IH Ha]; simpl; [constructor|].
  apply StronglySorted_app_2; [|exact IH|repeat constructor].
  intros b c Hb Hc. apply list_elem_of_singleton in Hc as ->.
  rewrite Forall_forall in Ha. apply Ha.
  apply list_elem_of_In, in_rev, list_elem_of_In. exact Hb.
Qed.

Lemma sorted_ascending out :
  StronglySorted (fun a b => Sort.not_less lt b a) out -> Sort.ascending lt out.
Proof.
  induction 1 as [|a l Hl IH Ha]; intros i j x y Hij Hi Hj.
  - rewrite lookup_nil in Hi. discriminate.
  - destruct j as [|j]; [lia|]. simpl in Hj.
    destruct i as [|i]; simpl in Hi.
    + injection Hi as <-. rewrite Forall_forall in Ha.
      apply Ha. eapply list_elem_of_lookup_2; eauto.
    + apply (IH i j); auto. lia.
Qed.

Lemma insertion_loop_sorted rest front :
  Forall (fun y => y ∈ xs) front -> Forall (fun y => y ∈ xs) rest ->
  StronglySorted (Sort.not_less lt) front ->
  exists out, Sort.insertion_loop less front rest = Some out /\
              Permutation (rev front ++ rest) out /\
              Sort.ascending lt out.
Proof.
  revert front. induction rest as [|x rest IH]; intros front Hf Hr Hs; simpl.
  - exists (rev front). rewrite app_nil_r.
    split; [reflexivity|]. split; [reflexivity|].
    now apply sorted_ascending, sorted_rev.
  - apply Forall_cons in Hr as [Hx Hr].
    destruct (sift_sorted front x Hx Hf Hs) as (f' & -> & Hperm & Hs').
    destruct (IH f') as (out & Hout & Hp & Hasc); auto.
    { rewrite <- Hperm. now constructor. }
    exists out. split; [exact Hout|]. split; [|exact Hasc].
    rewrite <- Hp, <- (Permutation_rev f'), <- Hperm.
    rewrite <- (Permutation_rev front). simpl.
    symmetry. apply Permutation_middle.
Qed.

End InsertionSort.

Lemma insertionSort_func_sorts {A : Type} :
  Sort.sorts (@Sort.insertionSort_func A).
Proof.
  intros less lt xs Hord. unfold Sort.insertionSort_func.
  destruct (insertion_loop_sorted xs less lt Hord xs []) as (out & ? & ? & ?).
  - constructor.
  - rewrite Forall_forall. auto.
  - constructor.
  - exists out. auto.
Qed.

(** ** The nil-aware comparator *)

Lemma valid_deref {A} (h : heap A) l :
  valid h (PRef l) -> exists u, deref h (PRef l) = Some u.
Proof.
  simpl. intros Hl. destruct (lookup_lt_is_Some_2 h l Hl) as [u Hu]. eauto.
Qed.

Lemma less_answers_name_lt h ui uj :
  valid h ui -> valid h uj ->
  Pitfalls.less h ui uj = Some (Pitfalls.name_lt h ui uj).
Proof.
  intros Hi Hj. unfold Pitfalls.less, Pitfalls.name_lt.
  destruct ui as [|a], uj as [|b]; simpl; try reflexivity.
  - destruct (valid_deref h a Hi) as [u Hu]. simpl in Hu. now rewrite Hu.
  - destruct (valid_deref h a Hi) as [u Hu], (valid_deref h b Hj) as [v Hv].
    simpl in Hu, Hv. now rewrite Hu, Hv.
Qed.

Lemma name_lt_irrefl h x : Pitfalls.name_lt h x x = false.
Proof.
  unfold Pitfalls.name_lt. destruct (deref h x); [|reflexivity].
  apply string_lt_irrefl.
Qed.

Lemma name_lt_trans h x y z :
  Pitfalls.name_lt h x y = true -> Pitfalls.name_lt h y z = true ->
  Pitfalls.name_lt h x z = true.
Proof.
  unfold Pitfalls.name_lt.
  destruct (deref h x), (deref h y), (deref h z); try congruence.
  apply string_lt_trans.
Qed.

Lemma name_ge_trans h x y z :
  Pitfalls.name_lt h x y = false -> Pitfalls.name_lt h y z = false ->
  Pitfalls.name_lt h x z = false.
Proof.
  unfold Pitfalls.name_lt.
  destruct (deref h x), (deref h y), (deref h z); try congruence.
  apply string_ge_trans.
Qed.

Lemma less_ordering h xs :
  Forall (valid h) xs ->
  Sort.ordering_on xs (Pitfalls.less h) (Pitfalls.name_lt h).
Proof.
  rewrite Forall_forall. intros Hv. constructor.
  - intros x y Hx Hy. apply less_answers_name_lt; auto.
  - intros x _. apply name_lt_irrefl.
  - intros x y z _ _ _. apply name_lt_trans.
  - intros x y z _ _ _. apply name_ge_trans.
Qed.

Lemma string_leb_not_lt s t :
  Go.string_lt t s = false -> String.leb s t = true.
Proof.
  unfold Go.string_lt, String.ltb, String.leb.
  rewrite (String.compare_antisym s t).
  destruct (String.compare t s); simpl; congruence.
Qed.

(** C2: for every slice of pointers, nil slots included, sorting with the
    nil-aware comparator returns without a panic (the comparator answers on
    every pair of valid pointers and never dereferences nil); the result
    holds the same pointers, every nil slot stands after every non-nil one,
    the non-nil ones are in ascending order of name, and nil is not less
    than nil. This holds of every sorting routine that meets the contract
    of [sort.Slice]. *)
Theorem sort_puts_nil_last
    (sort_Slice : Sort.comparator ptr -> list ptr -> option (list ptr))
    (Hsort : Sort.sorts sort_Slice)
    (h : heap Pitfalls.User) (ps : slice ptr)
    (Hvalid : Forall (valid h) (elems ps)) :
  (forall ui uj, valid h ui -> valid h uj ->
     exists b, Pitfalls.less h ui uj = Some b) /\
  Pitfalls.less h PNil PNil = Some false /\
  exists out,
    Sort.sort_slice sort_Slice (Pitfalls.less h) ps = Some out /\
    Permutation (elems ps) (elems out) /\
    (forall i j l, elems out !! i = Some PNil ->
                   elems out !! j = Some (PRef l) -> (j < i)%nat) /\
    (forall i j a b, (i < j)%nat ->
       Pitfalls.read_at h out i = Some a ->
       Pitfalls.read_at h out j = Some b ->
       String.leb (Pitfalls.Name a) (Pitfalls.Name b) = true).
Proof.
  split; [|split; [reflexivity|]].
  { intros ui uj Hi Hj. rewrite (less_answers_name_lt h ui uj Hi Hj). eauto. }
  assert (Hseq : exists out,
             Sort.sort_slice sort_Slice (Pitfalls.less h) ps = Some out /\
             Permutation (elems ps) (elems out) /\
             Sort.ascending (Pitfalls.name_lt h) (elems out)).
  { destruct ps as [|xs]; simpl.
    - exists nil_slice. split; [reflexivity|]. split; [reflexivity|].
      intros i j x y _ Hi. destruct i; discriminate.
    - destruct (Hsort _ _ xs (less_ordering h xs Hvalid))
        as (out & -> & Hperm & Hasc).
      exists (slice_of out). auto. }
  destruct Hseq as (out & Hout & Hperm & Hasc).
  exists out. split; [exact Hout|]. split; [exact Hperm|].
  assert (Hvout : forall i p, elems out !! i = Some p -> valid h p).
  { intros i p Hp. rewrite Forall_forall in Hvalid. apply Hvalid.
    rewrite Hperm. eapply list_elem_of_lookup_2; eauto. }
  split.
  - intros i j l Hi Hj.
    destruct (Nat.lt_trichotomy i j) as [Hlt | [-> | Hgt]]; [|congruence|exact Hgt].
    pose proof (Hasc i j _ _ Hlt Hi Hj) as Hno.
    destruct (valid_deref h l (Hvout _ _ Hj)) as [u Hu].
    unfold Pitfalls.name_lt in Hno. rewrite Hu in Hno. discriminate.
  - intros i j a b Hlt Ha Hb. unfold Pitfalls.read_at in Ha, Hb.
    destruct (elems out !! i) as [p|] eqn:Hi; [|discriminate].
    destruct (elems out !! j) as [q|] eqn:Hj; [|discriminate].
    pose proof (Hasc i j _ _ Hlt Hi Hj) as Hno.
    unfold Pitfalls.name_lt in Hno. rewrite Ha, Hb in Hno.
    now apply string_leb_not_lt.
Qed.

Lemma sort_puts_nil_last_witness :
  exists out,
    Sort.sort_slice Sort.insertionSort_func
      (Pitfalls.less Pitfalls.nilPitfalls_heap) Pitfalls.nilPitfalls_ptrs
    = Some out /\
    forall i j l, elems out !! i = Some PNil ->
                  elems out !! j = Some (PRef l) -> (j < i)%nat.
Proof.
  destruct (sort_puts_nil_last Sort.insertionSort_func
              insertionSort_func_sorts
              Pitfalls.nilPitfalls_heap Pitfalls.nilPitfalls_ptrs)
    as (_ & _ & out & Hout & _ & Hnil & _).
  - repeat constructor.
  - exists out. split; [exact Hout | exact Hnil].
Defined.

(** ** The run of [nilPitfallsDemo] *)

(** The only ascending arrangement of the demo's three pointers. *)
Lemma nilPitfalls_order out :
  Permutation (elems Pitfalls.nilPitfalls_ptrs) out ->
  Sort.ascending (Pitfalls.name_lt Pitfalls.nilPitfalls_heap) out ->
  out = [PRef 0; PRef 1; PNil].
Proof.
  intros Hperm Hasc.
  pose proof (Permutation_length Hperm) as Hlen.
  destruct out as [|a [|b [|c [|d out]]]]; try discriminate. clear Hlen.
  assert (Hnodup : NoDup [a; b; c]).
  { rewrite <- Hperm. unfold Pitfalls.nilPitfalls_ptrs. simpl.
    repeat (apply NoDup_cons_2;
            [let H := fresh in
             intros H;
             repeat (apply elem_of_cons in H as [H|H]; [discriminate|]);
             now apply elem_of_nil in H|]).
    apply NoDup_nil_2. }
  assert (Hin : forall x, x ∈ [a; b; c] -> x = PRef 0 \/ x = PNil \/ x = PRef 1).
  { intros x Hx. rewrite <- Hperm in Hx.
    unfold Pitfalls.nilPitfalls_ptrs in Hx. simpl in Hx.
    rewrite !elem_of_cons, elem_of_nil in Hx. tauto. }
  pose proof (Hasc 0%nat 1%nat a b ltac:(lia) eq_refl eq_refl) as Hab.
  pose proof (Hasc 1%nat 2%nat b c ltac:(lia) eq_refl eq_refl) as Hbc.
  pose proof (Hasc 0%nat 2%nat a c ltac:(lia) eq_refl eq_refl) as Hac.
  apply NoDup_cons in Hnodup as [Hna Hnodup].
  apply NoDup_cons in Hnodup as [Hnb _].
  destruct (Hin a ltac:(repeat constructor)) as [-> | [-> | ->]];
    destruct (Hin b ltac:(repeat constructor)) as [-> | [-> | ->]];
    destruct (Hin c ltac:(repeat constructor)) as [-> | [-> | ->]];
    try reflexivity;
    try solve [exfalso; apply Hna; repeat constructor];
    try solve [exfalso; apply Hnb; repeat constructor];
    try (vm_compute in Hab; discriminate);
    try (vm_compute in Hbc; discriminate);
    try (vm_compute in Hac; discriminate).
Qed.

(** C7: on the three pointers of [nilPitfallsDemo], Alice, nil and Carol,
    sorting with the nil-last comparator gives Alice, Carol, nil (printed
    as "[Alice, Carol, nil]"), and compacting the result gives a slice of
    exactly 2 elements, the records of Alice and Carol. *)
Theorem nilPitfallsDemo_order
    (sort_Slice : Sort.comparator ptr -> list ptr -> option (list ptr))
    (Hsort : Sort.sorts sort_Slice) :
  exists sorted,
    Sort.sort_slice sort_Slice (Pitfalls.less Pitfalls.nilPitfalls_heap)
      Pitfalls.nilPitfalls_ptrs = Some sorted /\
    sorted = slice_of [PRef 0; PRef 1; PNil] /\
    Pitfalls.ptrNames Pitfalls.nilPitfalls_heap sorted
      = Some "[Alice, Carol, nil]" /\
    len (Pitfalls.compactNonNil sorted) = 2%nat /\
    Pitfalls.toValueSlice Pitfalls.nilPitfalls_heap
      (Pitfalls.compactNonNil sorted)
      = Some (slice_of [Pitfalls.alice; Pitfalls.carol]).
Proof.
  assert (Hvalid : Forall (valid Pitfalls.nilPitfalls_heap)
                     (elems Pitfalls.nilPitfalls_ptrs)).
  { repeat constructor. }
  destruct (Hsort _ _ _ (less_ordering _ _ Hvalid))
    as (out & Hout & Hperm & Hasc).
  apply nilPitfalls_order in Hasc as ->; [|exact Hperm].
  exists (slice_of [PRef 0; PRef 1; PNil]).
  split; [|repeat split; reflexivity].
  unfold Pitfalls.nilPitfalls_ptrs, Sort.sort_slice.
  simpl in Hout. now rewrite Hout.
Qed.

Lemma nilPitfallsDemo_order_witness :
  Sort.sort_slice Sort.insertionSort_func
    (Pitfalls.less Pitfalls.nilPitfalls_heap) Pitfalls.nilPitfalls_ptrs
  = Some (slice_of [PRef 0; PRef 1; PNil]).
Proof.
  destruct (nilPitfallsDemo_order Sort.insertionSort_func
              insertionSort_func_sorts) as (sorted & Hs & -> & _).
  exact Hs.
Defined.

(** ** Loops over a slice of pointers *)

Lemma compactNonNil_loop_filter ps acc :
  Pitfalls.compactNonNil_loop ps (slice_of acc)
  = slice_of (acc ++ List.filter non_nil ps).
Proof.
  revert acc. induction ps as [|p ps IH]; intros acc; simpl.
  - now rewrite app_nil_r.
  - unfold non_nil. destruct (negb (is_nil p)).
    + unfold append1. simpl. rewrite IH, <- app_assoc. reflexivity.
    + apply IH.
Qed.

Lemma compactNonNil_filter ps :
  Pitfalls.compactNonNil ps = slice_of (List.filter non_nil (elems ps)).
Proof. apply compactNonNil_loop_filter. Qed.

Lemma filter_non_nil_idem ps :
  List.filter non_nil (List.filter non_nil ps) = List.filter non_nil ps.
Proof.
  induction ps as [|p ps IH]; simpl; [reflexivity|].
  destruct (non_nil p) eqn:Hp; simpl; [rewrite Hp, IH|]; auto.
Qed.

Lemma toValueSlice_loop_filter h ps out :
  Pitfalls.toValueSlice_loop h (List.filter non_nil ps) out
  = Pitfalls.toValueSlice_loop h ps out.
Proof.
  revert out. induction ps as [|p ps IH]; intros out; simpl; [reflexivity|].
  unfold non_nil. destruct (is_nil p) eqn:Hp; simpl; [apply IH|].
  rewrite Hp. destruct (deref h p); [apply IH|reflexivity].
Qed.

Lemma toValueSlice_loop_values h ps acc :
  Forall (valid h) ps ->
  exists vs,
    Pitfalls.toValueSlice_loop h ps (slice_of acc) = Some (slice_of (acc ++ vs)) /\
    Forall2 (fun p u => deref h p = Some u) (List.filter non_nil ps) vs.
Proof.
  revert acc. induction ps as [|p ps IH]; intros acc Hv; simpl.
  - exists []. rewrite app_nil_r. split; [reflexivity|constructor].
  - apply Forall_cons in Hv as [Hp Hv]. unfold non_nil at 1.
    destruct p as [|l]; simpl.
    + apply IH, Hv.
    + destruct (valid_deref h l Hp) as [u Hu]. simpl in Hu. rewrite Hu.
      destruct (IH (acc ++ [u]) Hv) as (vs & Hloop & Hvs).
      exists (u :: vs). unfold append1. simpl. rewrite Hloop, <- app_assoc.
      split; [reflexivity|]. constructor; [exact Hu|exact Hvs].
Qed.

(** C10: [toValueSlice] skips nil itself: its result holds exactly the
    records the non-nil pointers of [ps] refer to, in their order, and so
    compacting [ps] first changes nothing. *)
Theorem toValueSlice_skips_nil (h : heap Pitfalls.User) (ps : slice ptr)
    (Hvalid : Forall (valid h) (elems ps)) :
  (exists vs,
     Pitfalls.toValueSlice h ps = Some (slice_of vs) /\
     Forall2 (fun p u => deref h p = Some u)
       (List.filter (fun p => negb (is_nil p)) (elems ps)) vs) /\
  Pitfalls.toValueSlice h (Pitfalls.compactNonNil ps)
  = Pitfalls.toValueSlice h ps.
Proof.
  split.
  - destruct (toValueSlice_loop_values h (elems ps) [] Hvalid) as (vs & H1 & H2).
    exists vs. split; [exact H1|exact H2].
  - unfold Pitfalls.toValueSlice. rewrite compactNonNil_filter. simpl.
    apply toValueSlice_loop_filter.
Qed.

Lemma toValueSlice_skips_nil_witness :
  Pitfalls.toValueSlice Pitfalls.nilPitfalls_heap
    (Pitfalls.compactNonNil Pitfalls.nilPitfalls_ptrs)
  = Pitfalls.toValueSlice Pitfalls.nilPitfalls_heap Pitfalls.nilPitfalls_ptrs.
Proof.
  apply (toValueSlice_skips_nil Pitfalls.nilPitfalls_heap
           Pitfalls.nilPitfalls_ptrs).
  repeat constructor.
Defined.

(** ** Serialization of a slice of pointers *)

Lemma count_null_User u : count_null (marshal (Pitfalls.User_value u)) = 0%nat.
Proof. reflexivity. Qed.

Lemma ptr_values_encode h ps :
  Forall (valid h) ps ->
  exists vs, Pitfalls.ptr_values h ps = Some vs /\ Forall2 Pitfalls.encodes ps vs.
Proof.
  induction ps as [|p ps IH]; intros Hv; simpl.
  - exists []. split; [reflexivity|constructor].
  - apply Forall_cons in Hv as [Hp Hv].
    destruct (IH Hv) as (vs & -> & Hvs).
    destruct p as [|l]; simpl.
    + eexists. split; [reflexivity|]. constructor; [reflexivity|exact Hvs].
    + destruct (valid_deref h l Hp) as [u Hu]. simpl in Hu. rewrite Hu.
      eexists. split; [reflexivity|]. constructor; [|exact Hvs].
      split; [discriminate|reflexivity].
Qed.

Lemma encodes_count ps vs :
  Forall2 Pitfalls.encodes ps vs ->
  sum_nulls (List.map marshal vs) = length (List.filter is_nil ps).
Proof.
  induction 1 as [|p v ps vs Hpv _ IH]; simpl; [reflexivity|].
  destruct p; simpl in *.
  - rewrite Hpv. simpl. now rewrite IH.
  - destruct Hpv as [_ ->]. exact IH.
Qed.

Lemma encodes_position ps vs i :
  Forall2 Pitfalls.encodes ps vs ->
  List.map marshal vs !! i = Some JNull <-> ps !! i = Some PNil.
Proof.
  intros H. revert i. induction H as [|p v ps vs Hpv _ IH]; intros i.
  - simpl. rewrite !lookup_nil. split; discriminate.
  - destruct i as [|i]; simpl; [|apply IH].
    destruct p; simpl in Hpv.
    + rewrite Hpv. tauto.
    + destruct Hpv as [Hne _]. split; intros Heq; [|discriminate].
      injection Heq as Heq. contradiction.
Qed.

Lemma marshal_users_slice h xs vs :
  Pitfalls.ptr_values h xs = Some vs ->
  Pitfalls.marshal_users h (slice_of xs)
  = Some (JObj [("users", JArr (List.map marshal vs))]).
Proof.
  intros Hvs. unfold Pitfalls.marshal_users. simpl. now rewrite Hvs.
Qed.

Lemma non_nil_not_nil ps : List.filter is_nil (List.filter non_nil ps) = [].
Proof.
  induction ps as [|p ps IH]; simpl; [reflexivity|].
  destruct p; simpl; auto.
Qed.

Lemma valid_filter {A} (h : heap A) f ps :
  Forall (valid h) ps -> Forall (valid h) (List.filter f ps).
Proof.
  induction 1 as [|p ps Hp _ IH]; simpl; [constructor|].
  destruct (f p); [constructor|]; auto.
Qed.

Lemma null_per_absent_slot_of h xs :
  Forall (valid h) xs -> Pitfalls.null_per_absent_slot h (slice_of xs).
Proof.
  intros Hv. destruct (ptr_values_encode h xs Hv) as (vs & Hvs & Henc).
  exists (JObj [("users", JArr (List.map marshal vs))]).
  split; [now apply marshal_users_slice|]. split.
  - unfold Pitfalls.absent_slots. simpl.
    rewrite <- (encodes_count xs vs Henc). unfold sum_nulls. lia.
  - intros i. unfold Pitfalls.users_elem. simpl.
    now apply encodes_position.
Qed.

(** The absent collection, a nil slice, is not a sequence of slots: it is
    written as null in place of the array, and [compactNonNil] turns it
    into the empty array. *)
Lemma nil_slice_serializes_as_null (h : heap Pitfalls.User) :
  Pitfalls.marshal_users h nil_slice = Some (JObj [("users", JNull)]) /\
  Pitfalls.marshal_users h (Pitfalls.compactNonNil nil_slice)
  = Some (JObj [("users", JArr [])]).
Proof. split; reflexivity. Qed.

(** What is left of the encoded elements when the nil pointers are
    removed first is what is left of them when the nulls are removed
    afterwards. *)
Lemma ptr_values_without_null h ps vs :
  Pitfalls.ptr_values h ps = Some vs ->
  exists ws,
    Pitfalls.ptr_values h (List.filter non_nil ps) = Some ws /\
    List.map marshal ws = without_null (List.map marshal vs).
Proof.
  revert vs. induction ps as [|p ps IH]; intros vs Hvs; simpl in Hvs.
  - injection Hvs as <-. exists []. split; reflexivity.
  - destruct (Pitfalls.ptr_value h p) as [v|] eqn:Hv; [|discriminate].
    destruct (Pitfalls.ptr_values h ps) as [vs'|] eqn:Hvs'; [|discriminate].
    injection Hvs as <-.
    destruct (IH vs' eq_refl) as (ws & Hws & Hmap).
    destruct p as [|l]; simpl in Hv.
    + injection Hv as <-. exists ws. split; [exact Hws|exact Hmap].
    + destruct (h !! l) as [u|] eqn:Hu; [|discriminate].
      injection Hv as <-.
      exists (VPtr (Some (Pitfalls.User_value u)) :: ws). split.
      * cbn [List.filter non_nil is_nil negb Pitfalls.ptr_values
             Pitfalls.ptr_value].
        now rewrite Hu, Hws.
      * cbn [List.map]. rewrite Hmap. reflexivity.
Qed.

Lemma compact_drops_only_null_of h xs :
  Forall (valid h) xs -> Pitfalls.compact_drops_only_null h (slice_of xs).
Proof.
  intros Hv. destruct (ptr_values_encode h xs Hv) as (vs & Hvs & _).
  destruct (ptr_values_without_null h xs vs Hvs) as (ws & Hws & Hmap).
  exists (List.map marshal vs). split; [now apply marshal_users_slice|].
  rewrite compactNonNil_filter. cbn [elems]. rewrite <- Hmap.
  now apply marshal_users_slice.
Qed.

(** C3: for every sequence [xs] of pointers to records of the heap:
    serialized after [compactNonNil], it gives a document with no null;
    serialized as it is, it gives a document with exactly one null per nil
    slot, the element at index [i] of its array being null exactly when
    slot [i] of [xs] is nil. The first document has the array of the
    second one less these nulls, so nothing else is removed or moved. *)
Theorem null_markers_mark_absent_slots (h : heap Pitfalls.User)
    (xs : list ptr) (Hvalid : Forall (valid h) xs) :
  Pitfalls.no_null_after_compact h (slice_of xs) /\
  Pitfalls.null_per_absent_slot h (slice_of xs) /\
  Pitfalls.compact_drops_only_null h (slice_of xs).
Proof.
  split; [|split].
  - unfold Pitfalls.no_null_after_compact. rewrite compactNonNil_filter.
    destruct (null_per_absent_slot_of h (List.filter non_nil xs))
      as (doc & Hdoc & Hcount & _).
    { now apply valid_filter. }
    exists doc. split; [exact Hdoc|].
    rewrite Hcount. unfold Pitfalls.absent_slots. simpl.
    now rewrite non_nil_not_nil.
  - now apply null_per_absent_slot_of.
  - now apply compact_drops_only_null_of.
Qed.

Lemma null_markers_mark_absent_slots_witness :
  Pitfalls.no_null_after_compact Pitfalls.nilPitfalls_heap
    Pitfalls.nilPitfalls_ptrs /\
  Pitfalls.null_per_absent_slot Pitfalls.nilPitfalls_heap
    Pitfalls.nilPitfalls_ptrs /\
  Pitfalls.compact_drops_only_null Pitfalls.nilPitfalls_heap
    Pitfalls.nilPitfalls_ptrs.
Proof.
  apply (null_markers_mark_absent_slots Pitfalls.nilPitfalls_heap
           [PRef 0; PNil; PRef 1]).
  repeat constructor.
Defined.

(** The two documents [nilPitfallsDemo] prints after sorting. *)
Example nilPitfallsDemo_json :
  Pitfalls.marshal_users Pitfalls.nilPitfalls_heap
    (slice_of [PRef 0; PRef 1; PNil])
  = Some (JObj [("users",
                 JArr [JObj [("ID", JNum 1); ("Name", JStr "Alice");
                             ("Email", JStr "a@example.com");
                             ("City", JStr "Sendai")];
                       JObj [("ID", JNum 3); ("Name", JStr "Carol");
                             ("Email", JStr "c@example.com");
                             ("City", JStr "Nagoya")];
                       JNull])]).
Proof. reflexivity. Qed.

Example nilPitfallsDemo_json_cleaned :
  Pitfalls.marshal_users Pitfalls.nilPitfalls_heap
    (Pitfalls.compactNonNil (slice_of [PRef 0; PRef 1; PNil]))
  = Some (JObj [("users",
                 JArr [JObj [("ID", JNum 1); ("Name", JStr "Alice");
                             ("Email", JStr "a@example.com");
                             ("City", JStr "Sendai")];
                       JObj [("ID", JNum 3); ("Name", JStr "Carol");
                             ("Email", JStr "c@example.com");
                             ("City", JStr "Nagoya")]])]).
Proof. reflexivity. Qed.

(** The whole demo under insertion sort: the names it prints, and the
    number of nulls in its two documents. *)
Example nilPitfallsDemo_prints :
  (fun r => (fst (fst r), count_null (snd (fst r)), count_null (snd r)))
    <$> Pitfalls.nilPitfallsDemo Sort.insertionSort_func
  = Some ("[Alice, Carol, nil]", 1%nat, 0%nat).
Proof. reflexivity. Qed.

(** ** Filtering by reference *)

Lemma filterPtr_loop_selected pred h ps acc out :
  Pitfalls.filterPtr_loop pred h ps (slice_of acc) = Some out ->
  out = slice_of (acc ++ Pitfalls.selected pred h ps).
Proof.
  revert acc. induction ps as [|p ps IH]; intros acc; simpl.
  - rewrite app_nil_r. congruence.
  - destruct (pred h p) as [[|]|]; [| |discriminate].
    + intros H. apply IH in H. rewrite <- app_assoc in H. exact H.
    + apply IH.
Qed.

Lemma filterPtr_loop_returns pred h ps out0 :
  (forall p, p ∈ ps -> pred h p <> None) ->
  exists out, Pitfalls.filterPtr_loop pred h ps out0 = Some out.
Proof.
  revert out0. induction ps as [|p ps IH]; intros out0 Hp; simpl; [eauto|].
  destruct (pred h p) as [[|]|] eqn:E.
  - apply IH. intros q Hq. apply Hp. now constructor.
  - apply IH. intros q Hq. apply Hp. now constructor.
  - exfalso. apply (Hp p); [constructor|exact E].
Qed.

Lemma selected_lookup pred h ps k p :
  Pitfalls.selected pred h ps !! k = Some p -> exists i, ps !! i = Some p.
Proof.
  intros Hk. apply list_elem_of_lookup_2 in Hk.
  apply list_elem_of_In, filter_In in Hk as [Hin _].
  apply list_elem_of_In, list_elem_of_lookup_1 in Hin. exact Hin.
Qed.

Lemma elems_append_nil {A} (s : slice A) : elems (append nil_slice s) = elems s.
Proof.
  unfold append. destruct (elems s) eqn:E; simpl; [reflexivity|].
  reflexivity.
Qed.

(** A write through one holder of a pointer is read through any other. *)
Lemma assign_at_shared h s t k i p f :
  Forall (valid h) (elems t) ->
  elems s !! k = Some p -> elems t !! i = Some p -> is_nil p = false ->
  exists u h',
    Pitfalls.read_at h t i = Some u /\ Pitfalls.read_at h s k = Some u /\
    Pitfalls.assign_at h s k f = Some h' /\
    Pitfalls.read_at h' t i = Some (f u) /\
    Pitfalls.read_at h' s k = Some (f u).
Proof.
  intros Hv Hs Ht Hp. unfold Pitfalls.read_at, Pitfalls.assign_at.
  rewrite Hs, Ht. destruct p as [|l]; [discriminate|].
  rewrite Forall_forall in Hv.
  assert (Hl : valid h (PRef l)).
  { apply Hv. eapply list_elem_of_lookup_2; eauto. }
  destruct (valid_deref h l Hl) as [u Hu]. simpl in Hu, Hl |- *.
  exists u, (<[l := f u]> h). rewrite Hu.
  rewrite list_lookup_insert_eq by exact Hl. auto.
Qed.

Lemma selected_accepted pred h ps k p :
  Pitfalls.selected pred h ps !! k = Some p -> pred h p = Some true.
Proof.
  intros Hk. apply list_elem_of_lookup_2 in Hk.
  apply list_elem_of_In, filter_In in Hk as [_ Hp].
  destruct (pred h p) as [[|]|]; [reflexivity|discriminate|discriminate].
Qed.

Lemma lookup_selected pred h ps i p :
  ps !! i = Some p -> pred h p = Some true ->
  exists k, Pitfalls.selected pred h ps !! k = Some p.
Proof.
  intros Hi Hp. apply list_elem_of_lookup_1, list_elem_of_In.
  apply filter_In. split.
  - apply list_elem_of_In. eapply list_elem_of_lookup_2. exact Hi.
  - now rewrite Hp.
Qed.

(** C4: for every slice [ps] of pointers to records of the heap and
    every predicate that returns on its elements, [filterPtr] returns the
    elements of [ps] the predicate accepts, the pointers themselves and in
    their order. So every accepted element of the source is an element of
    the result, every element of the result is an accepted element of the
    source, and where it is not nil the two read the same record before
    and after a field write through the result: the write is seen through
    the source. The shallow copy [append(nil, ps...)] holds the pointers
    of [ps] index by index, and a field write through element [i] of the
    copy is seen through element [i] of [ps]. *)
Theorem filterPtr_shares_referents (h : heap Pitfalls.User) (ps : slice ptr)
    (pred : Pitfalls.predicate) (Hvalid : Forall (valid h) (elems ps))
    (Hpred : forall p, p ∈ elems ps -> pred h p <> None) :
  (exists out,
     Pitfalls.filterPtr ps pred h = Some out /\
     out = slice_of (Pitfalls.selected pred h (elems ps)) /\
     (forall i p, elems ps !! i = Some p -> pred h p = Some true ->
        exists k,
          elems out !! k = Some p /\
          (is_nil p = false ->
           forall f, exists u h',
             Pitfalls.read_at h ps i = Some u /\
             Pitfalls.read_at h out k = Some u /\
             Pitfalls.assign_at h out k f = Some h' /\
             Pitfalls.read_at h' ps i = Some (f u) /\
             Pitfalls.read_at h' out k = Some (f u))) /\
     (forall k p, elems out !! k = Some p ->
        pred h p = Some true /\
        exists i,
          elems ps !! i = Some p /\
          (is_nil p = false ->
           forall f, exists u h',
             Pitfalls.read_at h ps i = Some u /\
             Pitfalls.read_at h out k = Some u /\
             Pitfalls.assign_at h out k f = Some h' /\
             Pitfalls.read_at h' ps i = Some (f u) /\
             Pitfalls.read_at h' out k = Some (f u)))) /\
  elems (append nil_slice ps) = elems ps /\
  (forall i p f, elems ps !! i = Some p -> is_nil p = false ->
     exists u h',
       elems (append nil_slice ps) !! i = Some p /\
       Pitfalls.read_at h ps i = Some u /\
       Pitfalls.read_at h (append nil_slice ps) i = Some u /\
       Pitfalls.assign_at h (append nil_slice ps) i f = Some h' /\
       Pitfalls.read_at h' ps i = Some (f u) /\
       Pitfalls.read_at h' (append nil_slice ps) i = Some (f u)).
Proof.
  split; [|split].
  - destruct (filterPtr_loop_returns pred h (elems ps) make0 Hpred)
      as [out Hout].
    exists out. split; [exact Hout|].
    apply filterPtr_loop_selected in Hout. simpl in Hout.
    split; [exact Hout|]. subst out. cbn [elems]. split.
    + intros i p Hi Hp.
      destruct (lookup_selected pred h (elems ps) i p Hi Hp) as [k Hk].
      exists k. split; [exact Hk|]. intros Hnn f.
      destruct (assign_at_shared h
                  (slice_of (Pitfalls.selected pred h (elems ps))) ps
                  k i p f Hvalid Hk Hi Hnn) as (u & h' & ? & ? & ? & ? & ?).
      exists u, h'. auto.
    + intros k p Hk. split; [eapply selected_accepted; exact Hk|].
      destruct (selected_lookup _ _ _ _ _ Hk) as [i Hi].
      exists i. split; [exact Hi|]. intros Hnn f.
      destruct (assign_at_shared h
                  (slice_of (Pitfalls.selected pred h (elems ps))) ps
                  k i p f Hvalid Hk Hi Hnn) as (u & h' & ? & ? & ? & ? & ?).
      exists u, h'. auto.
  - apply elems_append_nil.
  - intros i p f Hi Hnn. pose proof Hi as Hi'.
    rewrite <- (elems_append_nil ps) in Hi'.
    destruct (assign_at_shared h (append nil_slice ps) ps
                i i p f Hvalid Hi' Hi Hnn) as (u & h' & ? & ? & ? & ? & ?).
    exists u, h'. auto 10.
Qed.

(** ** Filtering with a copy of each element *)

Lemma filterPtrDeepCopy_loop_fresh pred ps acc h out h1 :
  Pitfalls.filterPtrDeepCopy_loop pred ps (slice_of acc) h = Some (out, h1) ->
  exists ext news,
    h1 = h ++ ext /\ out = slice_of (acc ++ news) /\
    Forall (fresh_from (length h)) news /\ Forall (valid h1) news.
Proof.
  revert acc h. induction ps as [|p ps IH]; intros acc h; simpl.
  - intros [= <- <-]. exists [], []. rewrite !app_nil_r.
    repeat split; constructor.
  - destruct (is_nil p); [apply IH|].
    destruct (pred h p) as [[|]|]; [|apply IH|discriminate].
    destruct (deref h p) as [cp|]; [|discriminate].
    unfold append1. simpl. intros H.
    apply IH in H as (ext & news & -> & -> & Hfresh & Hval).
    exists (cp :: ext), (PRef (length h) :: news).
    rewrite <- !app_assoc. simpl. repeat split.
    + constructor; [simpl; lia|].
      eapply Forall_impl; [exact Hfresh|].
      intros [|l]; simpl; [tauto|]. rewrite length_app. simpl. lia.
    + constructor; [|rewrite <- app_assoc in Hval; exact Hval].
      simpl. rewrite length_app. simpl. lia.
Qed.

Lemma filterPtrDeepCopy_loop_returns pred ps out0 h :
  Forall (valid h) ps ->
  (forall ext p, p ∈ ps -> is_nil p = false -> pred (h ++ ext) p <> None) ->
  exists out h1, Pitfalls.filterPtrDeepCopy_loop pred ps out0 h = Some (out, h1).
Proof.
  revert out0 h. induction ps as [|p ps IH]; intros out0 h Hv Hp; simpl; [eauto|].
  apply Forall_cons in Hv as [Hvp Hv].
  assert (Hp' : forall ext q, q ∈ ps -> is_nil q = false ->
                              pred (h ++ ext) q <> None).
  { intros ext q Hq. apply Hp. now constructor. }
  destruct p as [|l]; simpl; [now apply IH|].
  pose proof (Hp [] (PRef l) ltac:(constructor) eq_refl) as Hpl.
  rewrite app_nil_r in Hpl.
  destruct (pred h (PRef l)) as [[|]|]; [|now apply IH|congruence].
  destruct (valid_deref h l Hvp) as [u Hu]. simpl in Hu. rewrite Hu.
  apply IH.
  - eapply Forall_impl; [exact Hv|].
    intros [|l']; simpl; [tauto|]. rewrite length_app. lia.
  - intros ext q Hq Hnn. rewrite <- app_assoc. now apply Hp'.
Qed.

(** Writes through fresh pointers leave the cells below [n] alone. *)
Lemma assign_at_frame n h s k f h' :
  Forall (fresh_from n) (elems s) ->
  Pitfalls.assign_at h s k f = Some h' ->
  length h' = length h /\ forall l, (l < n)%nat -> h' !! l = h !! l.
Proof.
  intros Hfresh. unfold Pitfalls.assign_at.
  destruct (elems s !! k) as [q|] eqn:Hk; [|discriminate].
  rewrite Forall_forall in Hfresh.
  pose proof (Hfresh q (list_elem_of_lookup_2 _ _ _ Hk)) as Hq.
  destruct q as [|l]; simpl in *; [contradiction|].
  destruct (h !! l); [|discriminate]. intros [= <-].
  split; [apply length_insert|].
  intros l' Hl'. apply list_lookup_insert_ne. lia.
Qed.

Lemma assign_all_frame n s ws h h' :
  Forall (fresh_from n) (elems s) ->
  Pitfalls.assign_all h s ws = Some h' ->
  forall l, (l < n)%nat -> h' !! l = h !! l.
Proof.
  intros Hfresh. revert h. induction ws as [|[k f] ws IH]; intros h; simpl.
  - congruence.
  - destruct (Pitfalls.assign_at h s k f) as [h1|] eqn:E; [|discriminate].
    intros H l Hl. rewrite (IH _ H l Hl).
    now apply (assign_at_frame n h s k f h1 Hfresh E).
Qed.

Lemma read_at_frame (h h' : heap Pitfalls.User) ps i :
  Forall (valid h) (elems ps) ->
  (forall l, (l < length h)%nat -> h' !! l = h !! l) ->
  Pitfalls.read_at h' ps i = Pitfalls.read_at h ps i.
Proof.
  intros Hv Hsame. unfold Pitfalls.read_at.
  destruct (elems ps !! i) as [p|] eqn:Hi; [|reflexivity].
  rewrite Forall_forall in Hv.
  pose proof (Hv p (list_elem_of_lookup_2 _ _ _ Hi)) as Hp.
  destruct p as [|l]; simpl in *; [reflexivity|]. now apply Hsame.
Qed.

(** C5: after [filterPtrDeepCopy], every element of the source slice
    reads the record it read before, every element of the result can be
    written through, and no run of field writes through the result changes
    what any element of the source reads. The filter returns whenever the
    predicate does. *)
Theorem filterPtrDeepCopy_isolates (h : heap Pitfalls.User) (ps : slice ptr)
    (pred : Pitfalls.predicate) (Hvalid : Forall (valid h) (elems ps)) :
  ((forall ext p, p ∈ elems ps -> is_nil p = false ->
                  pred (h ++ ext) p <> None) ->
   exists out h1, Pitfalls.filterPtrDeepCopy ps pred h = Some (out, h1)) /\
  forall out h1,
    Pitfalls.filterPtrDeepCopy ps pred h = Some (out, h1) ->
    (forall i, Pitfalls.read_at h1 ps i = Pitfalls.read_at h ps i) /\
    (forall k f, (k < len out)%nat ->
       exists h2, Pitfalls.assign_at h1 out k f = Some h2) /\
    forall ws h2,
      Pitfalls.assign_all h1 out ws = Some h2 ->
      forall i, Pitfalls.read_at h2 ps i = Pitfalls.read_at h ps i.
Proof.
  split.
  - intros Hp. now apply filterPtrDeepCopy_loop_returns.
  - intros out h1 Hout.
    apply filterPtrDeepCopy_loop_fresh in Hout
      as (ext & news & -> & -> & Hfresh & Hval).
    simpl in *. split; [|split].
    + intros i. apply read_at_frame; [exact Hvalid|].
      intros l Hl. now apply lookup_app_l.
    + intros k f Hk. unfold Pitfalls.assign_at, len in *. simpl in *.
      destruct (lookup_lt_is_Some_2 news k Hk) as [q Hq]. rewrite Hq.
      rewrite Forall_forall in Hval, Hfresh.
      pose proof (Hval q (list_elem_of_lookup_2 _ _ _ Hq)) as Hvq.
      pose proof (Hfresh q (list_elem_of_lookup_2 _ _ _ Hq)) as Hfq.
      destruct q as [|l]; simpl in *; [contradiction|].
      match goal with
      | |- context [match ?x with _ => _ end] => destruct x eqn:E
      end; [eauto|].
      apply lookup_ge_None in E. lia.
    + intros ws h2 Hws i. apply read_at_frame; [exact Hvalid|].
      intros l Hl.
      rewrite (assign_all_frame (length h) (slice_of news) ws _ _ Hfresh Hws l Hl).
      now apply lookup_app_l.
Qed.

Lemma filterPtrDeepCopy_isolates_witness :
  exists copied h1 h2,
    Pitfalls.filterPtrDeepCopy Pitfalls.safePatterns_src Pitfalls.in_Sendai
      Pitfalls.safePatterns_heap = Some (copied, h1) /\
    Pitfalls.assign_all h1 copied [(0%nat, Pitfalls.set_Name "Alice-DeepCopied")]
    = Some h2 /\
    forall i, Pitfalls.read_at h2 Pitfalls.safePatterns_src i
              = Pitfalls.read_at Pitfalls.safePatterns_heap
                  Pitfalls.safePatterns_src i.
Proof.
  assert (Hvalid : Forall (valid Pitfalls.safePatterns_heap)
                     (elems Pitfalls.safePatterns_src)).
  { vm_compute. repeat constructor. }
  eexists _, _, _. split; [reflexivity|]. split; [reflexivity|].
  exact (proj2 (proj2 (proj2 (filterPtrDeepCopy_isolates
                                Pitfalls.safePatterns_heap
                                Pitfalls.safePatterns_src
                                Pitfalls.in_Sendai Hvalid) _ _ eq_refl))
           [(0%nat, Pitfalls.set_Name "Alice-DeepCopied")] _ eq_refl).
Defined.

Lemma filterPtr_shares_referents_witness :
  (exists out,
     Pitfalls.filterPtr Pitfalls.sideEffects_ptrs Pitfalls.in_Sendai
       Pitfalls.sideEffects_heap = Some out /\
     out = slice_of [PRef 0] /\
     exists h',
       Pitfalls.read_at Pitfalls.sideEffects_heap Pitfalls.sideEffects_ptrs 0
       = Some (Pitfalls.mkUser 1 "Alice" "a@example.com" "Sendai") /\
       Pitfalls.assign_at Pitfalls.sideEffects_heap out 0
         (Pitfalls.set_Name "Alice-Updated") = Some h' /\
       Pitfalls.read_at h' Pitfalls.sideEffects_ptrs 0
       = Some (Pitfalls.mkUser 1 "Alice-Updated" "a@example.com" "Sendai")) /\
  exists h',
    Pitfalls.assign_at Pitfalls.sideEffects_heap
      (append nil_slice Pitfalls.sideEffects_ptrs) 1
      (Pitfalls.set_City "Tokyo") = Some h' /\
    Pitfalls.read_at h' Pitfalls.sideEffects_ptrs 1
    = Some (Pitfalls.mkUser 2 "Bob" "b@example.com" "Tokyo").
Proof.
  assert (Hvalid : Forall (valid Pitfalls.sideEffects_heap)
                     (elems Pitfalls.sideEffects_ptrs)).
  { vm_compute. repeat constructor. }
  assert (Hpred : forall p, p ∈ elems Pitfalls.sideEffects_ptrs ->
                            Pitfalls.in_Sendai Pitfalls.sideEffects_heap p
                            <> None).
  { intros p Hp. change (p ∈ [PRef 0; PRef 1]) in Hp.
    apply elem_of_cons in Hp as [->|Hp]; [discriminate|].
    apply elem_of_cons in Hp as [->|Hp]; [discriminate|].
    apply elem_of_nil in Hp. destruct Hp. }
  destruct (filterPtr_shares_referents Pitfalls.sideEffects_heap
              Pitfalls.sideEffects_ptrs Pitfalls.in_Sendai Hvalid Hpred)
    as ((out & Hout & Hsel & Hsrc & _) & _ & Hcopy).
  split.
  - exists out. split; [exact Hout|]. split; [exact Hsel|].
    destruct (Hsrc 0%nat (PRef 0) eq_refl eq_refl) as (k & Hk & Hw).
    rewrite Hsel in Hk. destruct k as [|k]; [|destruct k; discriminate].
    destruct (Hw eq_refl (Pitfalls.set_Name "Alice-Updated"))
      as (u & h' & Hu & _ & Ha & Hr & _).
    vm_compute in Hu. injection Hu as <-.
    exists h'. split; [reflexivity|]. split; [exact Ha|exact Hr].
  - destruct (Hcopy 1%nat (PRef 1) (Pitfalls.set_City "Tokyo")
                eq_refl eq_refl) as (u & h' & _ & Hu & _ & Ha & Hr & _).
    vm_compute in Hu. injection Hu as <-.
    exists h'. split; [exact Ha|exact Hr].
Defined.

Example sideEffectsDemo_prints :
  Pitfalls.sideEffectsDemo = Some ("Alice-Updated", "Alice-Updated", "Tokyo").
Proof. reflexivity. Qed.

Example safePatternsDemo_prints :
  Pitfalls.safePatternsDemo = Some ("Alice", "Alice-DeepCopied").
Proof. reflexivity. Qed.

Example safePatternsDemo_cache_prints :
  Pitfalls.safePatternsDemo_cache = Some "X".
Proof. reflexivity. Qed.

(** ** Pattern A: a copy owns its elements *)

Lemma read_elems_inv m b o n v :
  Main.read m (Main.HSlice b o n) = Some v ->
  exists arr, m !! b = Some arr /\ (o + n <= length arr)%nat /\
              v = slice_of (take n (drop o arr)).
Proof.
  simpl. destruct (m !! b) as [arr|]; [|discriminate].
  destruct (Nat.leb_spec (o + n) (length arr)); [|discriminate].
  intros [= <-]. eauto.
Qed.

Lemma read_app m s v xs :
  Main.read m s = Some v -> Main.read (m ++ [xs]) s = Some v.
Proof.
  destruct s as [|b o n]; [exact id|]. simpl.
  destruct (m !! b) as [arr|] eqn:Hb; [|discriminate].
  now rewrite (lookup_app_l_Some _ _ _ _ Hb).
Qed.

Lemma read_insert_new m s v xs arr' :
  Main.read m s = Some v ->
  Main.read (<[length m := arr']> (m ++ [xs])) s = Some v.
Proof.
  destruct s as [|b o n]; [auto|]. intros H.
  apply read_elems_inv in H as (arr & Hb & Hlen & ->). simpl.
  apply lookup_lt_Some in Hb as Hlt.
  rewrite list_lookup_insert_ne by lia.
  rewrite (lookup_app_l_Some _ _ _ _ Hb).
  apply Nat.leb_le in Hlen. now rewrite Hlen.
Qed.

(** C6: for a slice of values, copying it with [append] to a nil slice
    and then writing any field of any element of the copy leaves the
    original with the elements it had; the copy has the written element
    and is otherwise equal to the original. *)
Theorem copy_then_mutate_keeps_original (m : Main.arrays) (a : Main.header)
    (v : slice Main.User) (Hread : Main.read m a = Some v) :
  exists a2 m1,
    Main.append_nil m a = Some (a2, m1) /\
    Main.read m1 a = Some v /\
    elems <$> Main.read m1 a2 = Some (elems v) /\
    forall i f, (i < len v)%nat ->
      exists u m2,
        elems v !! i = Some u /\
        Main.set_elem m1 a2 i f = Some m2 /\
        Main.read m2 a = Some v /\
        elems <$> Main.read m2 a2 = Some (<[i := f u]> (elems v)).
Proof.
  unfold Main.append_nil. rewrite Hread. unfold len.
  destruct (elems v) as [|x xs] eqn:Hv.
  - exists Main.HNil, m. repeat split; auto.
    intros i f Hi. simpl in Hi. lia.
  - set (ys := x :: xs).
    assert (Hnew : (m ++ [ys]) !! length m = Some ys) by apply list_lookup_middle, eq_refl.
    assert (Hr2 : forall arr, length arr = length ys ->
              Main.read (<[length m := arr]> (m ++ [ys]))
                (Main.HSlice (length m) 0 (length ys)) = Some (slice_of arr)).
    { intros arr Hlen. cbn [Main.read].
      rewrite list_lookup_insert_eq by (rewrite length_app; simpl; lia).
      destruct (Nat.leb_spec (0 + length ys) (length arr)); [|lia].
      rewrite drop_0, take_ge by lia. reflexivity. }
    exists (Main.HSlice (length m) 0 (length ys)), (m ++ [ys]).
    split; [reflexivity|]. split; [now apply read_app|]. split.
    { rewrite <- (list_insert_id _ _ _ Hnew) at 1. now rewrite Hr2. }
    intros i f Hi.
    destruct (lookup_lt_is_Some_2 ys i Hi) as [u Hu].
    exists u, (<[length m := <[i := f u]> ys]> (m ++ [ys])).
    split; [exact Hu|]. split; [|split].
    + unfold Main.set_elem. apply Nat.ltb_lt in Hi. rewrite Hi.
      rewrite Hnew. simpl. now rewrite Hu.
    + now apply read_insert_new.
    + rewrite Hr2 by apply length_insert. reflexivity.
Qed.

Lemma copy_then_mutate_keeps_original_witness :
  exists a2 m1,
    Main.append_nil [[Main.alice]] (Main.HSlice 0 0 1) = Some (a2, m1) /\
    Main.read m1 (Main.HSlice 0 0 1) = Some (slice_of [Main.alice]).
Proof.
  destruct (copy_then_mutate_keeps_original [[Main.alice]]
              (Main.HSlice 0 0 1) (slice_of [Main.alice]) eq_refl)
    as (a2 & m1 & H1 & H2 & _).
  exists a2, m1. split; [exact H1 | exact H2].
Defined.

Example main_A_prints :
  Main.main_A = Some ("Alice", "Changed in a2").
Proof. reflexivity. Qed.

(** ** withCity *)

(** C9: [withCity(u, city)] returns a record whose City is [city] and
    whose ID, Name and Email are those of [u] (this [User] has no Age), and
    the call leaves the caller's variable, like every other cell, as it
    was. *)
Theorem withCity_returns_new_record (u : Pitfalls.User) (city : string) :
  Pitfalls.City (Pitfalls.withCity u city) = city /\
  Pitfalls.ID (Pitfalls.withCity u city) = Pitfalls.ID u /\
  Pitfalls.Name (Pitfalls.withCity u city) = Pitfalls.Name u /\
  Pitfalls.Email (Pitfalls.withCity u city) = Pitfalls.Email u /\
  forall h x, deref h x = Some u ->
    exists h',
      Pitfalls.call_withCity h x city = Some (Pitfalls.withCity u city, h') /\
      deref h' x = Some u /\
      forall p, valid h p -> deref h' p = deref h p.
Proof.
  repeat split.
  intros h x Hx. unfold Pitfalls.call_withCity. rewrite Hx. simpl.
  rewrite list_lookup_middle by reflexivity.
  rewrite list_lookup_insert_eq by (rewrite length_app; simpl; lia).
  eexists. split; [reflexivity|].
  assert (Hframe : forall p, valid h p ->
            deref (<[length h := Pitfalls.set_City city u]> (h ++ [u])) p
            = deref h p).
  { intros [|l] Hl; simpl in *; [reflexivity|].
    rewrite list_lookup_insert_ne by lia. now apply lookup_app_l. }
  split; [|exact Hframe].
  rewrite Hframe; [exact Hx|].
  destruct x as [|l]; simpl in *; [exact I|].
  now apply lookup_lt_Some in Hx.
Qed.

Lemma withCity_returns_new_record_witness :
  exists h',
    Pitfalls.call_withCity [Pitfalls.mkUser 10 "Dave" "" "Osaka"] (PRef 0) "Tokyo"
    = Some (Pitfalls.mkUser 10 "Dave" "" "Tokyo", h') /\
    deref h' (PRef 0) = Some (Pitfalls.mkUser 10 "Dave" "" "Osaka").
Proof.
  destruct (withCity_returns_new_record
              (Pitfalls.mkUser 10 "Dave" "" "Osaka") "Tokyo")
    as (_ & _ & _ & _ & Hcall).
  destruct (Hcall [Pitfalls.mkUser 10 "Dave" "" "Osaka"] (PRef 0) eq_refl)
    as (h' & H1 & H2 & _).
  exists h'. split; [exact H1 | exact H2].
Defined.

(** ** The generators *)

Lemma upto_S (k : nat) :
  Main.upto (Z.of_nat (S k)) = Main.upto (Z.of_nat k) ++ [Z.of_nat k].
Proof.
  unfold Main.upto. rewrite !Nat2Z.id, seq_S, map_app. reflexivity.
Qed.

(** The loop of [genUsers] after [k] rounds: the first [k] cells are
    written, the others are as before. *)
Lemma genUsers_loop (k : nat) (us : list Main.User) :
  (k <= length us)%nat ->
  let out := fold_left (fun us i => <[Z.to_nat i := Main.gen_user i]> us)
               (Main.upto (Z.of_nat k)) us in
  length out = length us /\
  forall j, out !! j = if (j <? k)%nat then Some (Main.gen_user (Z.of_nat j))
                       else us !! j.
Proof.
  induction k as [|k IH]; intros Hk; cbn zeta.
  - split; [reflexivity|]. intros j. reflexivity.
  - rewrite upto_S, fold_left_app. cbn [fold_left].
    destruct IH as [Hlen Hget]; [lia|]. cbn zeta in Hlen, Hget.
    rewrite Nat2Z.id. split; [now rewrite length_insert|].
    intros j. destruct (Nat.eq_dec j k) as [->|Hne].
    + rewrite list_lookup_insert_eq by lia.
      destruct (Nat.ltb_spec k (S k)); [reflexivity|lia].
    + rewrite list_lookup_insert_ne by lia. rewrite Hget.
      destruct (Nat.ltb_spec j k), (Nat.ltb_spec j (S k)); try lia; reflexivity.
Qed.

(** The loop of [genPtrUsers] after [k] rounds: [k] new cells, and the
    first [k] pointers refer to them in order. *)
Lemma genPtrUsers_loop (k : nat) (us : list ptr) (h : heap Main.User) :
  (k <= length us)%nat ->
  let st := fold_left (fun st i =>
                         let '(p, h1) := alloc (snd st) (Main.gen_user i) in
                         (<[Z.to_nat i := p]> (fst st), h1))
              (Main.upto (Z.of_nat k)) (us, h) in
  length (fst st) = length us /\
  snd st = h ++ List.map Main.gen_user (Main.upto (Z.of_nat k)) /\
  forall j, fst st !! j = if (j <? k)%nat then Some (PRef (length h + j))
                          else us !! j.
Proof.
  induction k as [|k IH]; intros Hk; cbn zeta.
  - split; [reflexivity|]. split; [now rewrite app_nil_r|]. reflexivity.
  - rewrite upto_S, fold_left_app. cbn [fold_left].
    destruct IH as (Hlen & Hheap & Hget); [lia|]. cbn zeta in Hlen, Hheap, Hget.
    set (st := fold_left _ (Main.upto (Z.of_nat k)) (us, h)) in *.
    clearbody st. destruct st as [us' h']. cbn [fst snd] in *.
    unfold alloc. cbn [fst snd]. rewrite Nat2Z.id.
    split; [now rewrite length_insert|]. split.
    + rewrite Hheap, map_app, app_assoc. reflexivity.
    + intros j. destruct (Nat.eq_dec j k) as [->|Hne].
      * rewrite list_lookup_insert_eq by lia.
        destruct (Nat.ltb_spec k (S k)); [|lia].
        rewrite Hheap, length_app, length_map. unfold Main.upto.
        now rewrite length_map, length_seq, Nat2Z.id.
      * rewrite list_lookup_insert_ne by lia. rewrite Hget.
        destruct (Nat.ltb_spec j k), (Nat.ltb_spec j (S k)); try lia; reflexivity.
Qed.

Lemma upto_lookup (n j : nat) :
  (j < n)%nat -> Main.upto (Z.of_nat n) !! j = Some (Z.of_nat j).
Proof.
  intros Hj. unfold Main.upto. rewrite Nat2Z.id.
  rewrite list_lookup_fmap, lookup_seq_lt by lia. reflexivity.
Qed.

(** In range, the index arithmetic does not wrap. *)
Lemma gen_user_fields (i : Z) :
  0 <= i < int_max ->
  Main.gen_user i =
    {| Main.ID := i + 1;
       Main.Name := String.append "User_" (Itoa i);
       Main.Age := 18 + i mod 50;
       Main.Email := String.append "user" (String.append (Itoa i) "@example.com");
       Main.City := String.append "City" (Itoa (i mod 10)) |}.
Proof.
  unfold int_max. intros Hi. unfold Main.gen_user, to_uint, wrap_int.
  rewrite !Z.rem_mod_nonneg by lia.
  pose proof (Z.mod_pos_bound i 50 ltac:(lia)).
  f_equal.
  - rewrite (Z.mod_small (i + 1 + 2 ^ 63)) by lia.
    rewrite Z.mod_small by lia. lia.
  - rewrite (Z.mod_small (18 + i mod 50 + 2 ^ 63)) by lia.
    rewrite Z.mod_small by lia. lia.
Qed.

(** Where [make([]User, n)] returns, [n] is a count and
    [make([]*User, n)] returns as well. *)
Lemma make_users_returns (n : Z) :
  make_panics Main.sizeof_User n = false ->
  0 <= n <= 2 ^ 42 /\ make_panics Main.sizeof_ptr n = false.
Proof.
  unfold make_panics, maxAlloc, Main.sizeof_User, Main.sizeof_ptr.
  intros H. apply orb_false_iff in H as [Hneg Hbig].
  apply Z.ltb_ge in Hneg, Hbig. split; [lia|].
  apply orb_false_iff. split; apply Z.ltb_ge; lia.
Qed.

(** Outside that range the generators panic in [make] and return
    nothing: on every negative length, and on every length beyond the
    allocation limit. *)
Lemma generators_panic_when_make_does (n : Z) :
  (Main.genUsers n = None <-> n < 0 \/ 2 ^ 42 < n) /\
  ((forall h, Main.genPtrUsers n h = None) <-> n < 0 \/ 2 ^ 45 < n).
Proof.
  unfold Main.genUsers, Main.genPtrUsers, make_panics, maxAlloc,
    Main.sizeof_User, Main.sizeof_ptr.
  split.
  - destruct (Z.ltb_spec n 0) as [Hneg|Hneg],
      (Z.ltb_spec (2 ^ 48) (64 * n)) as [Hbig|Hbig]; simpl;
      split; intros Hx; try reflexivity; try discriminate; lia.
  - destruct (Z.ltb_spec n 0) as [Hneg|Hneg],
      (Z.ltb_spec (2 ^ 48) (8 * n)) as [Hbig|Hbig]; simpl;
      split; intros Hx; try reflexivity; try lia.
    specialize (Hx []). cbn zeta in Hx.
    destruct (fold_left _ _ _). discriminate.
Qed.

Lemma generators_agree_nat (k : nat) :
  make_panics Main.sizeof_User (Z.of_nat k) = false ->
  Main.generators_agree (Z.of_nat k).
Proof.
  intros Hmake. destruct (make_users_returns _ Hmake) as [Hmax Hptr].
  unfold Main.generators_agree, Main.genUsers, Main.genPtrUsers.
  rewrite Hmake, Hptr.
  cbn zeta. rewrite !Nat2Z.id.
  destruct (genUsers_loop k (replicate k Main.zero_User)) as [Hlen Hget].
  { now rewrite length_replicate. }
  cbn zeta in Hlen, Hget. rewrite length_replicate in Hlen.
  set (out := fold_left _ (Main.upto (Z.of_nat k))
                (replicate k Main.zero_User)) in *.
  exists out. split; [reflexivity|]. split; [now rewrite Hlen|]. split.
  - intros i Hi. rewrite Hget.
    destruct (Nat.ltb_spec (Z.to_nat i) k); [|lia].
    rewrite Z2Nat.id by lia.
    rewrite gen_user_fields by (unfold int_max in *; lia).
    reflexivity.
  - intros h.
    destruct (genPtrUsers_loop k (replicate k PNil) h)
      as (Hlen' & Hheap & Hget').
    { now rewrite length_replicate. }
    cbn zeta in Hlen', Hheap, Hget'. rewrite length_replicate in Hlen'.
    set (st := fold_left _ (Main.upto (Z.of_nat k)) (replicate k PNil, h)) in *.
    clearbody st. destruct st as [ps h']. cbn [fst snd] in *.
    exists ps, h'. split; [reflexivity|]. split; [now rewrite Hlen'|].
    intros i Hi. rewrite Hlen' in Hi.
    exists (PRef (length h + i)). rewrite Hget', Hget.
    destruct (Nat.ltb_spec i k); [|lia].
    split; [reflexivity|]. split; [reflexivity|].
    subst h'. simpl. rewrite lookup_app_r by lia.
    replace (length h + i - length h)%nat with i by lia.
    rewrite list_lookup_fmap, upto_lookup by lia. reflexivity.
Qed.

(** C8: for every number of records [n], that is every length on which
    [make([]User, n)] returns (from 0 up to the allocation limit of the
    runtime), [genUsers(n)] and [genPtrUsers(n)] each return exactly [n]
    records, the record at index [i] has ID [i+1], Age [18 + i mod 50]
    and the name, email and city built from [i], and the i-th pointer of
    [genPtrUsers(n)] is non-nil and refers to a record equal to the i-th
    value of [genUsers(n)]. Both are functions of [n] alone. *)
Theorem generators_agree_on_every_length (n : Z)
    (Hmake : make_panics Main.sizeof_User n = false) :
  Main.generators_agree n.
Proof.
  destruct (make_users_returns _ Hmake) as [Hn _].
  rewrite <- (Z2Nat.id n) by lia. apply generators_agree_nat.
  rewrite Z2Nat.id by lia. exact Hmake.
Qed.

Lemma generators_agree_on_every_length_witness : Main.generators_agree 3.
Proof. apply generators_agree_on_every_length. reflexivity. Defined.

Example genUsers_3 :
  Main.genUsers 3 =
    Some (slice_of
            [Main.mkUser 1 "User_0" 18 "user0@example.com" "City0";
             Main.mkUser 2 "User_1" 19 "user1@example.com" "City1";
             Main.mkUser 3 "User_2" 20 "user2@example.com" "City2"]).
Proof. reflexivity. Qed.

(** * Further properties of the code *)

(** ** compactNonNil *)

Lemma filter_non_nil_sublist ps : sublist (List.filter non_nil ps) ps.
Proof.
  induction ps as [|p ps IH]; simpl; [constructor|].
  destruct (non_nil p); now constructor.
Qed.

Lemma filter_non_nil_Forall ps :
  Forall (fun p => is_nil p = false) (List.filter non_nil ps).
Proof.
  induction ps as [|p ps IH]; simpl; [constructor|].
  destruct p; simpl; [exact IH|]. now constructor.
Qed.

Lemma filter_non_nil_count ps :
  (length (List.filter non_nil ps) + length (List.filter is_nil ps)
   = length ps)%nat.
Proof.
  induction ps as [|p ps IH]; simpl; [reflexivity|].
  destruct p; simpl; lia.
Qed.

Lemma filter_non_nil_id ps :
  Forall (fun p => is_nil p = false) ps -> List.filter non_nil ps = ps.
Proof.
  induction 1 as [|p ps Hp _ IH]; [reflexivity|].
  destruct p; [discriminate|]. simpl. now rewrite IH.
Qed.

(** X1: [compactNonNil] returns a non-nil slice that holds the non-nil
    pointers of [ps] and no other, in their order; its length and the
    number of nil slots add up to the length of [ps]; applied twice it
    gives what it gives once; and a slice without nil comes back element
    for element. *)
Theorem compactNonNil_keeps_the_present (ps : slice ptr) :
  (exists out,
     Pitfalls.compactNonNil ps = slice_of out /\
     Forall (fun p => is_nil p = false) out /\
     sublist out (elems ps)) /\
  (len (Pitfalls.compactNonNil ps) + Pitfalls.absent_slots ps = len ps)%nat /\
  Pitfalls.compactNonNil (Pitfalls.compactNonNil ps)
  = Pitfalls.compactNonNil ps /\
  (Forall (fun p => is_nil p = false) (elems ps) ->
   elems (Pitfalls.compactNonNil ps) = elems ps).
Proof.
  rewrite !compactNonNil_filter. simpl. split; [|split; [|split]].
  - eexists. split; [reflexivity|].
    split; [apply filter_non_nil_Forall | apply filter_non_nil_sublist].
  - unfold len, Pitfalls.absent_slots. simpl. apply filter_non_nil_count.
  - now rewrite filter_non_nil_idem.
  - apply filter_non_nil_id.
Qed.

Lemma compactNonNil_keeps_the_present_witness :
  elems (Pitfalls.compactNonNil (slice_of [PRef 0; PRef 1]))
  = [PRef 0; PRef 1].
Proof.
  apply (compactNonNil_keeps_the_present (slice_of [PRef 0; PRef 1])).
  repeat constructor.
Defined.

(** ** deepCopyPtrSlice *)

Lemma deepCopyPtrSlice_loop_copies (h : heap Pitfalls.User) ps acc ext0 :
  Forall (valid h) ps ->
  exists news ext,
    Pitfalls.deepCopyPtrSlice_loop ps (slice_of acc) (h ++ ext0)
    = Some (slice_of (acc ++ news), h ++ ext0 ++ ext) /\
    Forall2 (PitfallsSpec.deep_copy_of h (h ++ ext0 ++ ext)) news ps.
Proof.
  intros Hv. revert acc ext0.
  induction Hv as [|p ps Hp _ IH]; intros acc ext0; simpl.
  - exists [], []. rewrite !app_nil_r. split; [reflexivity|constructor].
  - destruct p as [|l]; simpl.
    + destruct (IH (acc ++ [PNil]) ext0) as (news & ext & Hloop & Hall).
      exists (PNil :: news), ext. unfold append1. simpl.
      rewrite Hloop, <- app_assoc. split; [reflexivity|].
      constructor; [reflexivity|exact Hall].
    + simpl in Hp. rewrite (lookup_app_l h ext0 l Hp).
      destruct (lookup_lt_is_Some_2 h l Hp) as [cp Hcp]. rewrite Hcp.
      destruct (IH (acc ++ [PRef (length (h ++ ext0))]) (ext0 ++ [cp]))
        as (news & ext & Hloop & Hall).
      exists (PRef (length (h ++ ext0)) :: news), (cp :: ext).
      unfold append1. simpl.
      replace ((h ++ ext0) ++ [cp]) with (h ++ ext0 ++ [cp])
        by now rewrite app_assoc.
      rewrite Hloop, <- !app_assoc. simpl. split; [reflexivity|].
      constructor.
      * repeat split; simpl.
        -- rewrite length_app. lia.
        -- rewrite app_assoc, list_lookup_middle by reflexivity.
           now rewrite Hcp.
      * rewrite <- app_assoc in Hall. simpl in Hall.
        exact Hall.
Qed.

(** Writes through pointers that are nil or fresh leave the cells below
    [n] alone. *)
Lemma assign_all_frame_nil n s ws (h h' : heap Pitfalls.User) :
  Forall (fun q => q = PNil \/ fresh_from n q) (elems s) ->
  Pitfalls.assign_all h s ws = Some h' ->
  forall l, (l < n)%nat -> h' !! l = h !! l.
Proof.
  intros Hfresh. revert h. induction ws as [|[k f] ws IH]; intros h; simpl.
  - congruence.
  - unfold Pitfalls.assign_at.
    destruct (elems s !! k) as [q|] eqn:Hk; [|discriminate].
    rewrite Forall_forall in Hfresh.
    destruct (Hfresh q (list_elem_of_lookup_2 _ _ _ Hk)) as [-> | Hq];
      [discriminate|].
    destruct q as [|a]; simpl in *; [contradiction|].
    destruct (h !! a); [|discriminate].
    intros H l Hl. rewrite (IH _ H l Hl).
    apply list_lookup_insert_ne. lia.
Qed.

Lemma deep_copy_nil_or_fresh (h h1 : heap Pitfalls.User) out ps :
  Forall2 (PitfallsSpec.deep_copy_of h h1) out ps ->
  Forall (fun q => q = PNil \/ fresh_from (length h) q) out.
Proof.
  induction 1 as [|q p out ps Hq _ IH]; constructor; [|exact IH].
  destruct p; simpl in Hq; [now left|right; apply Hq].
Qed.

(** X2: [deepCopyPtrSlice] on pointers to records of the heap returns a
    slice of the same length with nil where [ps] has nil and, elsewhere,
    a pointer to a fresh cell that holds a copy of the record. The
    records [ps] refers to are as before, and stay so after every run of
    field writes through the copy. *)
Theorem deepCopyPtrSlice_copies (h : heap Pitfalls.User) (ps : slice ptr)
    (Hvalid : Forall (valid h) (elems ps)) :
  exists out h1,
    Pitfalls.deepCopyPtrSlice ps h = Some (slice_of out, h1) /\
    Forall2 (PitfallsSpec.deep_copy_of h h1) out (elems ps) /\
    (forall i, Pitfalls.read_at h1 ps i = Pitfalls.read_at h ps i) /\
    forall ws h2,
      Pitfalls.assign_all h1 (slice_of out) ws = Some h2 ->
      forall i, Pitfalls.read_at h2 ps i = Pitfalls.read_at h ps i.
Proof.
  destruct (deepCopyPtrSlice_loop_copies h (elems ps) [] [] Hvalid)
    as (out & ext & Hloop & Hall).
  rewrite app_nil_r in Hloop. simpl in Hloop, Hall.
  exists out, (h ++ ext). split; [exact Hloop|]. split; [exact Hall|].
  pose proof (deep_copy_nil_or_fresh _ _ _ _ Hall) as Hfresh.
  split.
  - intros i. apply read_at_frame; [exact Hvalid|].
    intros l Hl. now apply lookup_app_l.
  - intros ws h2 Hws i. apply read_at_frame; [exact Hvalid|].
    intros l Hl.
    rewrite (assign_all_frame_nil (length h) (slice_of out) ws _ _
               Hfresh Hws l Hl).
    now apply lookup_app_l.
Qed.

Lemma deepCopyPtrSlice_copies_witness :
  exists out h1,
    Pitfalls.deepCopyPtrSlice Pitfalls.nilPitfalls_ptrs
      Pitfalls.nilPitfalls_heap = Some (slice_of out, h1) /\
    Forall2 (PitfallsSpec.deep_copy_of Pitfalls.nilPitfalls_heap h1) out
      (elems Pitfalls.nilPitfalls_ptrs).
Proof.
  destruct (deepCopyPtrSlice_copies Pitfalls.nilPitfalls_heap
              Pitfalls.nilPitfalls_ptrs) as (out & h1 & H1 & H2 & _).
  - repeat constructor.
  - exists out, h1. split; [exact H1 | exact H2].
Defined.

(** ** toPtrSlice and toValueSlice *)

Lemma toPtrSlice_loop_cells (vs : list Pitfalls.User) i out h :
  (i + length vs <= length out)%nat ->
  exists out',
    Pitfalls.toPtrSlice_loop vs i out h = (out', h ++ vs) /\
    length out' = length out /\
    forall j, out' !! j =
              if ((i <=? j) && (j <? i + length vs))%nat
              then Some (PRef (length h + (j - i)))
              else out !! j.
Proof.
  revert i out h. induction vs as [|u vs IH]; intros i out h Hlen; simpl.
  - exists out. rewrite app_nil_r. split; [reflexivity|]. split; [reflexivity|].
    intros j. destruct (Nat.leb_spec i j), (Nat.ltb_spec j (i + 0)); simpl;
      try reflexivity; lia.
  - simpl in Hlen.
    destruct (IH (S i) (<[i := PRef (length h)]> out) (h ++ [u]))
      as (out' & Hloop & Hl & Hget).
    { rewrite length_insert. lia. }
    exists out'. rewrite Hloop, <- app_assoc. split; [reflexivity|].
    rewrite length_insert in Hl. split; [exact Hl|].
    intros j. rewrite Hget, length_app. cbn [length].
    destruct (Nat.leb_spec (S i) j), (Nat.ltb_spec j (S i + length vs)),
      (Nat.leb_spec i j), (Nat.ltb_spec j (i + S (length vs)));
      simpl; try lia;
      try (rewrite list_lookup_insert_ne by lia; reflexivity);
      try (assert (j = i) as -> by lia;
           rewrite list_lookup_insert_eq by lia);
      f_equal; f_equal; lia.
Qed.

Lemma refer_to_valid {A} (h : heap A) ps (us : list A) :
  Forall2 (fun p u => deref h p = Some u) ps us ->
  Forall (valid h) ps /\ Forall (fun p => is_nil p = false) ps.
Proof.
  induction 1 as [|p u ps us Hp _ [IH1 IH2]]; [split; constructor|].
  destruct p as [|l]; [discriminate|].
  split; constructor; auto. simpl in *. now apply lookup_lt_Some in Hp.
Qed.

Lemma refer_to_unique {A} (h : heap A) ps (us us' : list A) :
  Forall2 (fun p u => deref h p = Some u) ps us ->
  Forall2 (fun p u => deref h p = Some u) ps us' ->
  us = us'.
Proof.
  intros H. revert us'. induction H as [|p u ps us Hp _ IH]; intros us' H'.
  - now inversion H'.
  - inversion H' as [|? u' ? us'' Hp' Hus']; subst.
    f_equal; [congruence|]. now apply IH.
Qed.

(** X3: [toPtrSlice(vs)] returns one pointer per value, all distinct and
    non-nil, the j-th to a fresh cell holding [vs[j]]; [toValueSlice] of
    that result is [vs] again. *)
Theorem toPtrSlice_toValueSlice_round_trip (vs : slice Pitfalls.User)
    (h : heap Pitfalls.User) :
  exists ps,
    Pitfalls.toPtrSlice vs h = (slice_of ps, h ++ elems vs) /\
    length ps = len vs /\
    (forall j, (j < len vs)%nat -> ps !! j = Some (PRef (length h + j))) /\
    NoDup ps /\
    Forall2 (fun p u => deref (h ++ elems vs) p = Some u) ps (elems vs) /\
    Pitfalls.toValueSlice (h ++ elems vs) (slice_of ps)
    = Some (slice_of (elems vs)).
Proof.
  unfold Pitfalls.toPtrSlice, len.
  destruct (toPtrSlice_loop_cells (elems vs) 0
              (replicate (length (elems vs)) PNil) h)
    as (ps & Hloop & Hlen & Hget).
  { rewrite length_replicate. lia. }
  rewrite Hloop. rewrite length_replicate in Hlen.
  assert (Hps : forall j, (j < length (elems vs))%nat ->
                          ps !! j = Some (PRef (length h + j))).
  { intros j Hj. rewrite Hget.
    destruct (Nat.leb_spec 0 j), (Nat.ltb_spec j (0 + length (elems vs)));
      simpl; try lia.
    f_equal. f_equal. lia. }
  assert (Hderef : Forall2 (fun p u => deref (h ++ elems vs) p = Some u)
                     ps (elems vs)).
  { apply Forall2_same_length_lookup_2; [exact Hlen|].
    intros j p u Hp Hu. apply lookup_lt_Some in Hu as Hj.
    rewrite (Hps j Hj) in Hp. injection Hp as <-. simpl.
    rewrite lookup_app_r by lia.
    replace (length h + j - length h)%nat with j by lia. exact Hu. }
  exists ps. split; [reflexivity|]. split; [exact Hlen|].
  split; [exact Hps|]. split; [|split; [exact Hderef|]].
  - apply NoDup_alt. intros a b p Ha Hb.
    apply lookup_lt_Some in Ha as Hla. apply lookup_lt_Some in Hb as Hlb.
    rewrite Hps in Ha by lia. rewrite Hps in Hb by lia.
    rewrite <- Ha in Hb. injection Hb. lia.
  - unfold Pitfalls.toValueSlice. simpl.
    destruct (refer_to_valid _ _ _ Hderef) as [Hv Hnn].
    destruct (toValueSlice_loop_values (h ++ elems vs) ps [] Hv)
      as (us & Hloop' & Hus).
    unfold make0. rewrite Hloop'. simpl.
    rewrite (filter_non_nil_id ps Hnn) in Hus.
    now rewrite (refer_to_unique _ _ _ _ Hus Hderef).
Qed.

(** ** ptrNames *)

Lemma append_assoc (a b c : string) :
  String.append (String.append a b) c = String.append a (String.append b c).
Proof.
  induction a as [|x a IH]; [reflexivity|].
  change (String x (String.append (String.append a b) c)
          = String x (String.append a (String.append b c))).
  now rewrite IH.
Qed.

Lemma append_empty_r (a : string) : String.append a "" = a.
Proof.
  induction a as [|x a IH]; [reflexivity|].
  change (String x (String.append a "") = String x a). now rewrite IH.
Qed.

Lemma ptrNames_loop_joined (h : heap Pitfalls.User) ps i b :
  Forall (valid h) ps ->
  Pitfalls.ptrNames_loop h ps i b
  = Some (String.append b
            (match ps with
             | [] => ""
             | _ => String.append (if (0 <? i)%nat then ", " else "")
                      (PitfallsSpec.joined ", "
                         (List.map (PitfallsSpec.slot_name h) ps))
             end)).
Proof.
  intros Hv. revert i b.
  induction Hv as [|p ps Hp Hv IH]; intros i b.
  - simpl. now rewrite append_empty_r.
  - cbn [Pitfalls.ptrNames_loop].
    assert (Hstep : forall b1,
              (if is_nil p
               then Pitfalls.ptrNames_loop h ps (S i) (String.append b1 "nil")
               else match deref h p with
                    | Some u =>
                        Pitfalls.ptrNames_loop h ps (S i)
                          (String.append b1 (Pitfalls.Name u))
                    | None => None
                    end)
              = Pitfalls.ptrNames_loop h ps (S i)
                  (String.append b1 (PitfallsSpec.slot_name h p))).
    { intros b1. unfold PitfallsSpec.slot_name.
      destruct p as [|l]; simpl; [reflexivity|].
      destruct (valid_deref h l Hp) as [u Hu]. simpl in Hu. now rewrite Hu. }
    rewrite Hstep, IH. f_equal.
    destruct ps as [|q ps]; cbn [List.map PitfallsSpec.joined].
    + rewrite append_empty_r.
      destruct (0 <? i)%nat; now rewrite ?append_assoc.
    + replace (0 <? S i)%nat with true by reflexivity.
      destruct (0 <? i)%nat; now rewrite ?append_assoc.
Qed.

(** X4: [ptrNames] writes the names of the records between brackets,
    separated by a comma and a space, with the word nil for a nil
    slot. *)
Theorem ptrNames_joins_names (h : heap Pitfalls.User) (ps : slice ptr)
    (Hvalid : Forall (valid h) (elems ps)) :
  Pitfalls.ptrNames h ps
  = Some (String.append "["
            (String.append
               (PitfallsSpec.joined ", "
                  (List.map (PitfallsSpec.slot_name h) (elems ps)))
               "]")).
Proof.
  unfold Pitfalls.ptrNames. rewrite ptrNames_loop_joined by exact Hvalid.
  destruct (elems ps); reflexivity.
Qed.

Lemma ptrNames_joins_names_witness :
  Pitfalls.ptrNames Pitfalls.nilPitfalls_heap Pitfalls.nilPitfalls_ptrs
  = Some "[Alice, nil, Carol]".
Proof.
  rewrite (ptrNames_joins_names Pitfalls.nilPitfalls_heap
             Pitfalls.nilPitfalls_ptrs); [reflexivity|].
  repeat constructor.
Defined.

(** ** The two filters select the same records *)

Lemma filterPtrDeepCopy_loop_accepted (h : heap Pitfalls.User) pred ps acc ext0 :
  PitfallsSpec.extension_stable pred h ->
  Forall (valid h) ps ->
  (forall p, p ∈ ps -> is_nil p = false -> pred h p <> None) ->
  exists news ext,
    Pitfalls.filterPtrDeepCopy_loop pred ps (slice_of acc) (h ++ ext0)
    = Some (slice_of (acc ++ news), h ++ ext0 ++ ext) /\
    Forall2 (PitfallsSpec.copy_of h (h ++ ext0 ++ ext)) news
      (PitfallsSpec.accepted pred h ps).
Proof.
  intros Hstable Hv. revert acc ext0.
  induction Hv as [|p ps Hp _ IH]; intros acc ext0 Hret.
  - exists [], []. simpl. rewrite !app_nil_r. split; [reflexivity|constructor].
  - assert (Hret' : forall q, q ∈ ps -> is_nil q = false -> pred h q <> None).
    { intros q Hq. apply Hret. now constructor. }
    cbn [Pitfalls.filterPtrDeepCopy_loop PitfallsSpec.accepted List.filter].
    destruct p as [|l]; [simpl; now apply IH|].
    cbn [is_nil non_nil negb andb]. rewrite (Hstable ext0 (PRef l) Hp).
    pose proof (Hret (PRef l) ltac:(constructor) eq_refl) as Hsome.
    destruct (pred h (PRef l)) as [[|]|]; [|now apply IH|congruence].
    simpl in Hp. cbn [deref]. rewrite (lookup_app_l h ext0 l Hp).
    destruct (lookup_lt_is_Some_2 h l Hp) as [cp Hcp]. rewrite Hcp.
    destruct (IH (acc ++ [PRef (length (h ++ ext0))]) (ext0 ++ [cp]) Hret')
      as (news & ext & Hloop & Hall).
    exists (PRef (length (h ++ ext0)) :: news), (cp :: ext).
    unfold alloc, append1. cbn [elems].
    replace ((h ++ ext0) ++ [cp]) with (h ++ ext0 ++ [cp])
      by now rewrite app_assoc.
    rewrite Hloop, <- !app_assoc. simpl. split; [reflexivity|].
    rewrite <- app_assoc in Hall. simpl in Hall.
    constructor; [|exact Hall].
    repeat split; simpl.
    + rewrite length_app. lia.
    + rewrite app_assoc, list_lookup_middle by reflexivity. now rewrite Hcp.
Qed.

Lemma filter_non_nil_selected pred (h : heap Pitfalls.User) ps :
  List.filter non_nil (Pitfalls.selected pred h ps)
  = PitfallsSpec.accepted pred h ps.
Proof.
  unfold Pitfalls.selected, PitfallsSpec.accepted.
  induction ps as [|p ps IH]; simpl; [reflexivity|].
  destruct (pred h p) as [[|]|]; simpl;
    destruct (non_nil p); simpl; now rewrite ?IH.
Qed.

Lemma in_Sendai_stable (h : heap Pitfalls.User) :
  PitfallsSpec.extension_stable Pitfalls.in_Sendai h.
Proof.
  intros ext [|l] Hl; [reflexivity|].
  unfold Pitfalls.in_Sendai. simpl in *. now rewrite lookup_app_l.
Qed.

(** X5: on a predicate that returns on the non-nil elements and answers
    the same once more cells are allocated, [filterPtrDeepCopy] returns
    fresh copies of exactly the non-nil elements the predicate accepts,
    in order; these are the non-nil elements [filterPtr] keeps. *)
Theorem filterPtrDeepCopy_copies_what_filterPtr_keeps
    (h : heap Pitfalls.User) (ps : slice ptr) (pred : Pitfalls.predicate)
    (Hvalid : Forall (valid h) (elems ps))
    (Hstable : PitfallsSpec.extension_stable pred h)
    (Hreturns : forall p, p ∈ elems ps -> is_nil p = false ->
                          pred h p <> None) :
  exists out h1,
    Pitfalls.filterPtrDeepCopy ps pred h = Some (slice_of out, h1) /\
    Forall2 (PitfallsSpec.copy_of h h1) out
      (PitfallsSpec.accepted pred h (elems ps)) /\
    forall kept,
      Pitfalls.filterPtr ps pred h = Some kept ->
      List.filter non_nil (elems kept)
      = PitfallsSpec.accepted pred h (elems ps).
Proof.
  destruct (filterPtrDeepCopy_loop_accepted h pred (elems ps) [] []
              Hstable Hvalid Hreturns) as (out & ext & Hloop & Hall).
  rewrite app_nil_r in Hloop. simpl in Hloop, Hall.
  exists out, (h ++ ext). split; [exact Hloop|]. split; [exact Hall|].
  intros kept Hkept. apply filterPtr_loop_selected in Hkept. subst kept.
  simpl. apply filter_non_nil_selected.
Qed.

Lemma filterPtrDeepCopy_copies_what_filterPtr_keeps_witness :
  exists out h1,
    Pitfalls.filterPtrDeepCopy Pitfalls.safePatterns_src Pitfalls.in_Sendai
      Pitfalls.safePatterns_heap = Some (slice_of out, h1) /\
    Forall2 (PitfallsSpec.copy_of Pitfalls.safePatterns_heap h1) out
      [PRef 0; PRef 2].
Proof.
  destruct (filterPtrDeepCopy_copies_what_filterPtr_keeps
              Pitfalls.safePatterns_heap Pitfalls.safePatterns_src
              Pitfalls.in_Sendai) as (out & h1 & H1 & H2 & _).
  - vm_compute. repeat constructor.
  - apply in_Sendai_stable.
  - intros p Hp _. vm_compute in Hp.
    repeat (apply elem_of_cons in Hp as [-> | Hp]; [discriminate|]).
    now apply elem_of_nil in Hp.
  - exists out, h1. split; [exact H1 | exact H2].
Defined.

(** ** printJSON on every value of the three shapes *)

(** X6: what [printJSON] writes for every value of the three structs.
    The key users is left out exactly for a slice of length 0 (nil or
    empty) in [HogeA] and [PiyoC] and for the nil pointer in [FugaB]; a
    pointer to an empty slice is written as the empty array and a pointer
    to a nil slice as null. *)
Theorem printJSON_omits_exactly_the_empty :
  (forall a,
     Main.printJSON_A a =
       match elems (Main.HogeA_Users a) with
       | [] => JObj []
       | us => JObj [("users",
                      JArr (List.map (fun u => marshal (Main.User_value u)) us))]
       end) /\
  (forall b,
     Main.printJSON_B b =
       match Main.FugaB_Users b with
       | None => JObj []
       | Some nil_slice => JObj [("users", JNull)]
       | Some (slice_of us) =>
           JObj [("users",
                  JArr (List.map (fun u => marshal (Main.User_value u)) us))]
       end) /\
  (forall c,
     Main.printJSON_C c =
       match elems (Main.PiyoC_Users c) with
       | [] => JObj []
       | ps => JObj [("users",
                      JArr (List.map
                              (fun p => match p with
                                        | Some u => marshal (Main.User_value u)
                                        | None => JNull
                                        end) ps))]
       end).
Proof.
  split; [|split].
  - intros [[|[|u us]]]; try reflexivity.
    unfold Main.printJSON_A, Main.HogeA_value.
    cbn -[Main.User_value]. now rewrite List.map_map.
  - intros [[[|us]|]]; try reflexivity.
    unfold Main.printJSON_B, Main.FugaB_value.
    cbn -[Main.User_value]. now rewrite List.map_map.
  - intros [[|[|p ps]]]; try reflexivity.
    unfold Main.printJSON_C, Main.PiyoC_value.
    cbn -[Main.User_value]. rewrite List.map_map.
    replace (List.map (fun x : option Main.User =>
                         marshal (VPtr (Main.User_value <$> x))) ps)
      with (List.map (fun p0 : option Main.User =>
                        match p0 with
                        | Some u => marshal (Main.User_value u)
                        | None => JNull
                        end) ps)
      by (apply List.map_ext; now intros [u|]).
    now destruct p.
Qed.

Example printJSON_pointer_to_nil_slice :
  Main.printJSON_B {| Main.FugaB_Users := Some nil_slice |}
  = JObj [("users", JNull)].
Proof. reflexivity. Qed.

(** ** Pattern B: a write through the pointer is seen by every holder *)

(** X7: pattern B. Two pointers to the same slice variable share its
    elements: the write [( *p)[i].F = v] is read through [*q] and through
    the variable itself. *)
Theorem write_through_slice_pointer_is_shared
    (vars : list Main.header) (m : Main.arrays) (p q : ptr)
    (s : Main.header) (v : slice Main.User) (i : nat)
    (f : Main.User -> Main.User)
    (Hp : deref vars p = Some s) (Hq : deref vars q = Some s)
    (Hread : Main.read m s = Some v) (Hi : (i < len v)%nat) :
  exists u m2,
    elems v !! i = Some u /\
    Shared.set_elem_via vars m p i f = Some m2 /\
    Shared.read_via vars m2 q = Some (slice_of (<[i := f u]> (elems v))) /\
    Main.read m2 s = Some (slice_of (<[i := f u]> (elems v))).
Proof.
  unfold Shared.set_elem_via, Shared.read_via. rewrite Hp, Hq.
  destruct s as [|b o n].
  { injection Hread as <-. unfold len in Hi. simpl in Hi. lia. }
  apply read_elems_inv in Hread as (arr & Hb & Hlen & ->).
  unfold len in Hi. simpl in Hi |- *.
  rewrite length_take, length_drop in Hi.
  destruct (lookup_lt_is_Some_2 arr (o + i)) as [u Hu]; [lia|].
  exists u, (<[b := <[(o + i)%nat := f u]> arr]> m).
  assert (Hin : (i <? n)%nat = true) by (apply Nat.ltb_lt; lia).
  rewrite Hin, Hb, Hu.
  apply lookup_lt_Some in Hb as Hlt.
  rewrite list_lookup_insert_eq by exact Hlt.
  rewrite length_insert.
  apply Nat.leb_le in Hlen as Hle. rewrite Hle.
  rewrite drop_insert_ge by lia.
  replace (o + i - o)%nat with i by lia.
  rewrite take_insert_lt by lia.
  repeat split.
  rewrite lookup_take_lt by lia. now rewrite lookup_drop.
Qed.

Lemma write_through_slice_pointer_is_shared_witness :
  exists u m2,
    elems (slice_of [Shared.bob]) !! 0%nat = Some u /\
    Shared.set_elem_via [Main.HSlice 0 0 0; Main.HSlice 1 0 1]
      [[]; [Shared.bob]] (PRef 1) 0 (Main.set_Name "Bob-Updated") = Some m2 /\
    Shared.read_via [Main.HSlice 0 0 0; Main.HSlice 1 0 1] m2 (PRef 1)
    = Some (slice_of (<[0%nat := Main.set_Name "Bob-Updated" u]>
                        (elems (slice_of [Shared.bob])))).
Proof.
  destruct (write_through_slice_pointer_is_shared
              [Main.HSlice 0 0 0; Main.HSlice 1 0 1] [[]; [Shared.bob]]
              (PRef 1) (PRef 1) (Main.HSlice 1 0 1) (slice_of [Shared.bob])
              0%nat (Main.set_Name "Bob-Updated") eq_refl eq_refl eq_refl)
    as (u & m2 & H1 & H2 & H3 & _).
  - unfold len. simpl. lia.
  - exists u, m2. auto.
Defined.

Example main_B_prints : Shared.main_B = Some "Bob-Updated".
Proof. reflexivity. Qed.

Example main_C_prints :
  Shared.main_C = Some ("Carol-Shared", "Carol-Shared", true).
Proof. reflexivity. Qed.
